(** * auditory: mel filter bank, trial driver and FIR filter of the Go port

  A shallow embedding of the numeric core of the repository:
  - [trm]: the circular-buffer FIR filter of the tube resonance model
  (trm/FirFilter.go);
  - [audio]: the mel filter bank (audio/mel.go) and the trial driver
  [AuditoryProc] with its border wrap and gabor pass.

  Conventions.  A Go [int] is a [Z] with the 64-bit wrap-around written
  out ([GoInt.wrap]); a [float32] is an IEEE binary32 value of the
  standard library's [spec_float] at precision 24; a Go slice is a
  [list] indexed by [Z], and an index outside the slice is a run-time
  panic, modelled as [None]. *)

From Stdlib Require Import ZArith Lia Bool SpecFloat.
From stdpp Require Import base option list strings.

Open Scope Z_scope.

(** ** Go's [int] *)

Module GoInt.

Definition min_int : Z := - 2 ^ 63.
Definition max_int : Z := 2 ^ 63 - 1.

(** Two's complement reduction into [min_int .. max_int]. *)
Definition wrap (z : Z) : Z := (z + 2 ^ 63) mod 2 ^ 64 - 2 ^ 63.

Definition in_range (z : Z) : Prop := min_int <= z <= max_int.

Definition add (a b : Z) : Z := wrap (a + b).
Definition sub (a b : Z) : Z := wrap (a - b).
Definition mul (a b : Z) : Z := wrap (a * b).

(** [a / b] truncates toward zero and panics on a zero divisor. *)
Definition quo (a b : Z) : option Z :=
  if b =? 0 then None else Some (wrap (Z.quot a b)).

(** [a % b] has the sign of the dividend and panics on a zero divisor. *)
Definition rem (a b : Z) : option Z :=
  if b =? 0 then None else Some (Z.rem a b).

End GoInt.

(** ** Go slices *)

Module Slice.

Section Ops.
Context {A : Type}.

(** [s[i]]: panics unless [0 <= i < len(s)]. *)
Definition get (s : list A) (i : Z) : option A :=
  if i <? 0 then None else s !! Z.to_nat i.

(** [s[i] = v]: panics unless [0 <= i < len(s)]. *)
Definition set (s : list A) (i : Z) (v : A) : option (list A) :=
  if (0 <=? i) && (i <? Z.of_nat (length s))
  then Some (<[Z.to_nat i := v]> s) else None.

Definition len (s : list A) : Z := Z.of_nat (length s).

End Ops.

End Slice.


(** ** Go's [float32] *)

Module F32.

Definition prec : Z := 24.
Definition emax : Z := 128.

Definition t : Type := spec_float.

Definition zero : t := S754_zero false.
Definition add : t -> t -> t := SFadd prec emax.
Definition sub : t -> t -> t := SFsub prec emax.
Definition mul : t -> t -> t := SFmul prec emax.
Definition div : t -> t -> t := SFdiv prec emax.
Definition ltb : t -> t -> bool := SFltb.
Definition leb : t -> t -> bool := SFleb.
Definition eqb : t -> t -> bool := SFeqb.
Definition abs : t -> t := SFabs.

(** [float32(i)] for an integer [i], rounded to nearest even. *)
Definition of_int (i : Z) : t := binary_normalize prec emax i 0 false.

(** The constant [m * 2^e]. *)
Definition of_bits (m e : Z) : t := binary_normalize prec emax m e false.

Definition one : t := of_int 1.

(** [int(x)]: truncation toward zero.  For a NaN, an infinity or a value
    outside the range of [int] the Go specification leaves the result to
    the implementation; amd64 gives the smallest [int]. *)
Definition to_int (x : t) : Z :=
  match x with
  | S754_zero _ => 0
  | S754_finite s m e =>
      let mag := if 0 <=? e then Z.pos m * 2 ^ e else Z.pos m / 2 ^ (- e) in
      let z := if s then - mag else mag in
      if (GoInt.min_int <=? z) && (z <=? GoInt.max_int) then z
      else GoInt.min_int
  | _ => GoInt.min_int
  end.

(** [math32.Floor]: the zeros, the infinities, NaN and the values with a
    non-negative exponent are integers already. *)
Definition floor (x : t) : t :=
  match x with
  | S754_finite s m e =>
      if 0 <=? e then x
      else
        let q := Z.pos m / 2 ^ (- e) in
        let r := Z.pos m mod 2 ^ (- e) in
        if s then of_int (- (if r =? 0 then q else q + 1))
        else of_int q
  | _ => x
  end.

(** [math32.Min] and [math32.Max]. *)
Definition is_nan (x : t) : bool := match x with S754_nan => true | _ => false end.
Definition signbit (x : t) : bool :=
  match x with
  | S754_zero s | S754_infinity s | S754_finite s _ _ => s
  | S754_nan => false
  end.

Definition Min (x y : t) : t :=
  match x, y with
  | S754_infinity true, _ | _, S754_infinity true => S754_infinity true
  | _, _ =>
      if is_nan x || is_nan y then S754_nan
      else if eqb x zero && eqb x y then (if signbit x then x else y)
      else if ltb x y then x else y
  end.

Definition Max (x y : t) : t :=
  match x, y with
  | S754_infinity false, _ | _, S754_infinity false => S754_infinity false
  | _, _ =>
      if is_nan x || is_nan y then S754_nan
      else if eqb x zero && eqb x y then (if signbit x then y else x)
      else if ltb y x then x else y
  end.

End F32.

(** ** Go's [float64], for the few places the code computes in it *)

Module F64.

Definition prec : Z := 53.
Definition emax : Z := 1024.

Definition t : Type := spec_float.

Definition add : t -> t -> t := SFadd prec emax.
Definition mul : t -> t -> t := SFmul prec emax.
Definition of_int (i : Z) : t := binary_normalize prec emax i 0 false.
Definition of_bits (m e : Z) : t := binary_normalize prec emax m e false.
Definition one : t := of_int 1.

(** [float64(x)] of a [float32]: exact. *)
Definition of_f32 (x : F32.t) : t :=
  match x with
  | S754_finite s m e => binary_normalize prec emax (if s then Z.neg m else Z.pos m) e s
  | _ => x
  end.

(** [float32(x)] of a [float64]: rounded to nearest even. *)
Definition to_f32 (x : t) : F32.t :=
  match x with
  | S754_finite s m e =>
      binary_normalize F32.prec F32.emax (if s then Z.neg m else Z.pos m) e s
  | _ => x
  end.

(** [math.Round]: to the nearest integer, halves away from zero. *)
Definition Round (x : t) : t :=
  match x with
  | S754_finite s m e =>
      if 0 <=? e then x
      else
        let q := Z.pos m / 2 ^ (- e) in
        let r := Z.pos m mod 2 ^ (- e) in
        let q := if 2 ^ (- e) <=? 2 * r then q + 1 else q in
        if q =? 0 then S754_zero s else of_int (if s then - q else q)
  | _ => x
  end.

Definition to_int : t -> Z := F32.to_int.

End F64.

(** ** The functions of [github.com/chewxy/math32] the code calls

    The transcendental functions are library code outside the repository;
    the embedding is parametric in them. *)

Record Math32 : Type := mkMath32 {
  Log : F32.t -> F32.t;
  Exp : F32.t -> F32.t;
  Cos : F32.t -> F32.t;
  Pow : F32.t -> F32.t -> F32.t
}.

(** * trm/FirFilter.go *)

Module trm.

Definition Limit : Z := 200.

Record FirFilter : Type := mkFirFilter {
  Ptr : Z;
  NTaps : Z;
  Data : list F32.t;
  Coef : list F32.t
}.

Definition set_Ptr (p : Z) (ff : FirFilter) : FirFilter :=
  mkFirFilter p (NTaps ff) (Data ff) (Coef ff).
Definition set_Data (d : list F32.t) (ff : FirFilter) : FirFilter :=
  mkFirFilter (Ptr ff) (NTaps ff) d (Coef ff).
Definition set_Coef (c : list F32.t) (ff : FirFilter) : FirFilter :=
  mkFirFilter (Ptr ff) (NTaps ff) (Data ff) c.

(** [make([]float32, n)] *)
Definition make (n : Z) : list F32.t := replicate (Z.to_nat n) F32.zero.

(** Increment: the pointer into the circular buffer, kept in
    [0 .. modulus-1]. *)
Definition Increment (ptr modulus : Z) : Z :=
  let ptr := GoInt.add ptr 1 in
  if modulus <=? ptr then 0 else ptr.

Definition Decrement (ptr modulus : Z) : Z :=
  let ptr := GoInt.sub ptr 1 in
  if ptr <? 0 then GoInt.sub modulus 1 else ptr.

(** The tap loop of [Filter]: [n] iterations are left, [i] is the tap. *)
Fixpoint Filter_taps (n : nat) (i : Z) (ff : FirFilter) (output : F32.t)
  : option (FirFilter * F32.t) :=
  match n with
  | O => Some (ff, output)
  | S n' =>
      d ← Slice.get (Data ff) (Ptr ff);
      c ← Slice.get (Coef ff) i;
      Filter_taps n' (i + 1)
        (set_Ptr (Increment (Ptr ff) (NTaps ff)) ff)
        (F32.add output (F32.mul d c))
  end.

Definition Filter (ff : FirFilter) (input : F32.t) (needOutput : bool)
  : option (FirFilter * F32.t) :=
  if needOutput then
    (* put input sample into data buffer *)
    data ← Slice.set (Data ff) (Ptr ff) input;
    (* sum the output from all filter taps *)
    '(ff1, output) ← Filter_taps (Z.to_nat (NTaps ff)) 0
                        (set_Data data ff) F32.zero;
    (* decrement the data pointer ready for next call *)
    Some (set_Ptr (Decrement (Ptr ff1) (NTaps ff1)) ff1, output)
  else
    data ← Slice.set (Data ff) (Ptr ff) input;
    let ff1 := set_Data data ff in
    Some (set_Ptr (Decrement (Ptr ff1) (NTaps ff1)) ff1, F32.zero).

(** Reset *)
Definition Reset (ff : FirFilter) : FirFilter :=
  set_Ptr 0 (set_Data (replicate (length (Data ff)) F32.zero) ff).

Definition half : F32.t := F32.of_bits 1 (-1).
Definition two : F32.t := F32.of_int 2.
Definition four : F32.t := F32.of_int 4.
(** [math32.Pi], the binary32 value nearest to pi, and its double. *)
Definition Pi : F32.t := F32.of_bits 13176795 (-22).
Definition twoPi : F32.t := F32.of_bits 13176795 (-21).

(** The search loop of [RationalApproximation] over the denominators
    [i .. orderMaximum]; the state is (minimumError, modulus, denominator). *)
Fixpoint RationalApproximation_loop (n : nat) (i : Z) (fractionalPart : F32.t)
  (st : F32.t * Z * Z) : F32.t * Z * Z :=
  match n with
  | O => st
  | S n' =>
      let '(minimumError, _, _) := st in
      let ps := F32.mul (F32.of_int i) fractionalPart in
      let ip := F32.to_int (F32.add ps half) in
      let error :=
        F32.abs (F32.div (F32.sub ps (F32.of_int ip)) (F32.of_int i)) in
      RationalApproximation_loop n' (i + 1) fractionalPart
        (if F32.ltb error minimumError then (error, ip, i) else st)
  end.

(** RationalApproximation; the three pointers are passed in and returned as
    (order, numerator, denominator). *)
Definition RationalApproximation (number : F32.t) (order numerator denominator : Z)
  : Z * Z * Z :=
  if order <=? 0 then (-1, 0, 0)
  else
    let fractionalPart :=
      F32.abs (F32.sub number (F32.of_int (F32.to_int number))) in
    let orderMaximum := GoInt.mul 2 order in
    let orderMaximum := if Limit <? orderMaximum then Limit else orderMaximum in
    let '(_, modulus, denominator) :=
      RationalApproximation_loop (Z.to_nat (orderMaximum - order + 1)) order
        fractionalPart (F32.one, 0, denominator) in
    let numerator :=
      GoInt.add (GoInt.mul (F32.to_int (F32.abs number)) denominator) modulus in
    let numerator :=
      if F32.ltb number F32.zero then GoInt.mul numerator (-1) else numerator in
    let order := GoInt.sub denominator 1 in
    if numerator =? denominator
    then (GoInt.sub orderMaximum 1, GoInt.sub orderMaximum 1, orderMaximum)
    else (order, numerator, denominator).

Section Designer.

Context (m32 : Math32).

(** The innermost product of [MaximallyFlat]:
    [for jj := 1; jj <= numerator-1; jj++ { z *= 1.0 + float32(j)/float32(jj) }] *)
Fixpoint MaximallyFlat_z (n : nat) (jj j : Z) (z : F32.t) : F32.t :=
  match n with
  | O => z
  | S n' =>
      MaximallyFlat_z n' (jj + 1) j
        (F32.mul z (F32.add F32.one (F32.div (F32.of_int j) (F32.of_int jj))))
  end.

(** [for j := 1; j <= ll; j++], on the state (y, sum). *)
Fixpoint MaximallyFlat_sum (n : nat) (j numerator : Z) (x : F32.t)
  (st : F32.t * F32.t) : F32.t * F32.t :=
  match n with
  | O => st
  | S n' =>
      let '(y, sum) := st in
      let z :=
        if numerator =? 1 then y
        else MaximallyFlat_z (Z.to_nat (GoInt.sub numerator 1)) 1 j y in
      MaximallyFlat_sum n' (j + 1) numerator x (F32.mul y x, F32.add sum z)
  end.

(** compute magnitude at np points: [for i := 2; i <= *np; i++], on the
    local slices (a, c). *)
Fixpoint MaximallyFlat_magnitude (k : nat) (i n nt numerator ll : Z)
  (ac : list F32.t * list F32.t) : option (list F32.t * list F32.t) :=
  match k with
  | O => Some ac
  | S k' =>
      let '(a, c) := ac in
      let ci :=
        Cos m32 (F32.div (F32.mul twoPi (F32.of_int (i - 1))) (F32.of_int n)) in
      c ← Slice.set c i ci;
      let x := F32.div (F32.sub F32.one ci) two in
      if numerator =? nt then
        MaximallyFlat_magnitude k' (i + 1) n nt numerator ll (a, c)
      else
        let '(_, sum) :=
          MaximallyFlat_sum (Z.to_nat ll) 1 numerator x (x, F32.one) in
        a ← Slice.set a i
              (F32.mul sum (Pow m32 (F32.sub F32.one x) (F32.of_int numerator)));
        MaximallyFlat_magnitude k' (i + 1) n nt numerator ll (a, c)
  end.

(** [for j := 2; j <= *np; j++] of the n-point idft, accumulating into
    [ff.Coef[i]]. *)
Fixpoint MaximallyFlat_idft_row (k : nat) (j i n nt : Z) (a c coef : list F32.t)
  : option (list F32.t) :=
  match k with
  | O => Some coef
  | S k' =>
      m ← GoInt.rem (GoInt.mul (i - 1) (j - 1)) n;
      let m := if nt <? m then GoInt.sub n m else m in
      ci ← Slice.get coef i;
      cm ← Slice.get c (m + 1);
      aj ← Slice.get a j;
      coef ← Slice.set coef i (F32.add ci (F32.mul cm aj));
      MaximallyFlat_idft_row k' (j + 1) i n nt a c coef
  end.

(** Calculate weighting coefficients by an n-point idft:
    [for i := 1; i <= *np; i++]. *)
Fixpoint MaximallyFlat_idft (k : nat) (i np n nt : Z) (a c coef : list F32.t)
  : option (list F32.t) :=
  match k with
  | O => Some coef
  | S k' =>
      a1 ← Slice.get a 1;
      coef ← Slice.set coef i (F32.div a1 two);
      coef ← MaximallyFlat_idft_row (Z.to_nat (np - 1)) 2 i n nt a c coef;
      ci ← Slice.get coef i;
      coef ← Slice.set coef i (F32.mul ci (F32.div two (F32.of_int n)));
      MaximallyFlat_idft k' (i + 1) np n nt a c coef
  end.

(** The guards of [MaximallyFlat]: [true] when beta or gamma is refused.
    The cut-off frequency must be between 0 hz and nyquist, and the
    transition band must fit with the stop band. *)
Definition beta_out_of_range (beta : F32.t) : bool :=
  F32.leb beta F32.zero || F32.leb half beta.

Definition betaMin (beta : F32.t) : F32.t :=
  let b := F32.mul two beta in
  if F32.ltb b (F32.sub F32.one (F32.mul two beta))
  then F32.mul two beta
  else F32.sub F32.one (F32.mul two beta).

Definition gamma_out_of_range (beta gamma : F32.t) : bool :=
  F32.leb gamma F32.zero || F32.leb (betaMin beta) gamma.

(** MaximallyFlat.  The result is the filter, the value left in [*np] and
    the returned int; [coefficients] is never touched by the Go code. *)
Definition MaximallyFlat (ff : FirFilter) (beta gamma : F32.t)
  (coefficients : list F32.t) : option (FirFilter * Z * Z) :=
  let a := make (Limit + 1) in
  let c := make (Limit + 1) in
  (* initialize number of points *)
  let np := 0 in
  if beta_out_of_range beta then Some (ff, np, 0)
  else if gamma_out_of_range beta gamma then Some (ff, np, 0)
  else
    (* make sure transition band not too small *)
    let nt := F32.to_int (F32.div F32.one (F32.mul (F32.mul four gamma) gamma)) in
    if 160 <? nt then Some (ff, np, 0)
    else
      (* calculate the rational approximation to the cut-off point *)
      let ac := F32.add F32.one (F32.div (Cos m32 (F32.mul twoPi beta)) two) in
      let '(nt, numerator, np) := RationalApproximation ac nt 0 np in
      (* calculate filter order *)
      let n := GoInt.sub (GoInt.mul 2 np) 1 in
      let numerator := if numerator =? 0 then 1 else numerator in
      a ← Slice.set a 1 F32.one;
      c ← Slice.set c 1 F32.one;
      let ll := GoInt.sub nt numerator in
      '(a, c) ← MaximallyFlat_magnitude (Z.to_nat (np - 1)) 2 n nt numerator ll (a, c);
      coef ← MaximallyFlat_idft (Z.to_nat np) 1 np n nt a c (Coef ff);
      Some (set_Coef coef ff, np, 0).

(** Trim: the scan [for i := *nCoefficients; i > 0; i--]; the result is the
    value left in [*nCoefficients]. *)
Fixpoint Trim_scan (k : nat) (i nCoefficients : Z) (coef : list F32.t)
  (cutoff : F32.t) : option Z :=
  match k with
  | O => Some nCoefficients
  | S k' =>
      ci ← Slice.get coef i;
      if F32.leb (F32.abs cutoff) (F32.abs ci) then Some i
      else Trim_scan k' (i - 1) nCoefficients coef cutoff
  end.

Definition Trim (ff : FirFilter) (cutoff : F32.t) (nCoefficients : Z)
  (coefficients : list F32.t) : option Z :=
  Trim_scan (Z.to_nat nCoefficients) nCoefficients nCoefficients (Coef ff) cutoff.

(** initialize the coefficients: [for i := 0; i < nTaps; i++], on the state
    (ff.Coef, pointer, increment). *)
Fixpoint Init_coefs (k : nat) (i : Z) (coefficients coef : list F32.t)
  (pointer increment : Z) : option (list F32.t) :=
  match k with
  | O => Some coef
  | S k' =>
      v ← Slice.get coefficients pointer;
      coef ← Slice.set coef i v;
      let pointer := GoInt.add pointer increment in
      if pointer <=? 0
      then Init_coefs k' (i + 1) coefficients coef 2 1
      else Init_coefs k' (i + 1) coefficients coef pointer increment
  end.

Definition Init (ff : FirFilter) (beta gamma cutoff : F32.t) : option FirFilter :=
  let coefficients := make (Limit + 1) in
  let nCoefficients := 0 in
  (* determine ideal low pass filter coefficients *)
  '(ff, nCoefficients, _) ← MaximallyFlat ff beta gamma coefficients;
  (* trim low-value coefficients *)
  nCoefficients ← Trim ff cutoff nCoefficients coefficients;
  (* determine the number of taps in the filter *)
  let nTaps := GoInt.sub (GoInt.mul nCoefficients 2) 1 in
  coef ← Init_coefs (Z.to_nat nTaps) 0 coefficients (Coef ff) nCoefficients (-1);
  Some (set_Ptr 0 (set_Coef coef ff)).

End Designer.

End trm.

(** * The tensors of [github.com/emer/etable/etensor]

    A tensor is a shape and a flat slice of values in row-major order.
    [Offset] adds up index times stride and checks nothing per axis: only
    the flat index is checked, by the slice access. *)

Module etensor.

Record Tensor (A : Type) : Type := mkTensor {
  Shp : list Z;
  Values : list A
}.
Arguments mkTensor {A} _ _.
Arguments Shp {A} _.
Arguments Values {A} _.

Definition Float32 : Type := Tensor F32.t.
Definition Int32 : Type := Tensor Z.

Section Ops.
Context {A : Type}.

Definition empty : Tensor A := mkTensor [] [].

Definition set_Values (vs : list A) (tsr : Tensor A) : Tensor A :=
  mkTensor (Shp tsr) vs.

(** The number of elements a shape holds. *)
Definition shape_len (shape : list Z) : Z := foldr GoInt.mul 1 shape.

Definition Len (tsr : Tensor A) : Z := shape_len (Shp tsr).

Definition NumDims (tsr : Tensor A) : Z := Slice.len (Shp tsr).

(** [Dim(i)] indexes the shape slice. *)
Definition Dim (tsr : Tensor A) (i : Z) : option Z := Slice.get (Shp tsr) i.

Fixpoint RowMajorStrides (shape : list Z) : list Z :=
  match shape with
  | [] => []
  | _ :: rest => shape_len rest :: RowMajorStrides rest
  end.

Fixpoint Offset_sum (index strides : list Z) : option Z :=
  match index, strides with
  | [], _ => Some 0
  | v :: index, s :: strides =>
      o ← Offset_sum index strides; Some (GoInt.add (GoInt.mul v s) o)
  | _ :: _, [] => None
  end.

Definition Offset (tsr : Tensor A) (index : list Z) : option Z :=
  Offset_sum index (RowMajorStrides (Shp tsr)).

Definition Value1D (tsr : Tensor A) (i : Z) : option A :=
  Slice.get (Values tsr) i.

Definition Set1D (tsr : Tensor A) (i : Z) (v : A) : option (Tensor A) :=
  vs ← Slice.set (Values tsr) i v; Some (set_Values vs tsr).

Definition Value (tsr : Tensor A) (index : list Z) : option A :=
  j ← Offset tsr index; Value1D tsr j.

(** [Set(index, v)] ([Set] is reserved in Rocq). *)
Definition SetAt (tsr : Tensor A) (index : list Z) (v : A) : option (Tensor A) :=
  j ← Offset tsr index; Set1D tsr j v.

(** [SetShape(shape, nil, nil)]: the values are kept and cut or padded
    with [zero] to the new length (the capacity of the Go slice is taken to
    be its length); a negative length panics. *)
Definition SetShape (zero : A) (tsr : Tensor A) (shape : list Z)
  : option (Tensor A) :=
  let nln := shape_len shape in
  if nln <? 0 then None
  else
    let n := Z.to_nat nln in
    Some (mkTensor shape
            (take n (Values tsr) ++ replicate (n - length (Values tsr)) zero)).

End Ops.

(** [int32(x)] of an [int] that went through [float64]: exact inside the
    range of [int32]; outside it the conversion is left to the
    implementation, amd64 gives the smallest [int32]. *)
Definition int_to_int32 (i : Z) : Z :=
  if (- 2 ^ 31 <=? i) && (i <? 2 ^ 31) then i else - 2 ^ 31.

End etensor.

(** * audio/mel.go *)

Module RenormSpec.

Record t : Type := mk {
  On : bool;
  RenormMin : F32.t;
  RenormMax : F32.t;
  RenormScale : F32.t
}.

Definition Initialize (rs : t) : t :=
  let RenormMin := F32.of_int (-5) in
  let RenormMax := F32.of_int 9 in
  mk true RenormMin RenormMax (F32.div F32.one (F32.sub RenormMax RenormMin)).

End RenormSpec.

Module MelCepstrumSpec.

Record t : Type := mk {
  On : bool;
  NCoeff : Z
}.

Definition Initialize (mc : t) : t := mk false 13.

End MelCepstrumSpec.

Section MelScale.
Context (m32 : Math32).

(** FreqToMel converts frequency to mel scale *)
Definition FreqToMel (freq : F32.t) : F32.t :=
  F32.mul (F32.of_int 1127)
    (Log m32 (F32.add F32.one (F32.div freq (F32.of_int 700)))).

(** MelToFreq converts mel scale to frequency *)
Definition MelToFreq (mel : F32.t) : F32.t :=
  F32.mul (F32.of_int 700)
    (F32.sub (Exp m32 (F32.div mel (F32.of_int 1127))) F32.one).

End MelScale.

(** FreqToBin converts frequency into FFT bin number *)
Definition FreqToBin (freq nFft sampleRate : F32.t) : Z :=
  F32.to_int (F32.floor (F32.div (F32.mul (F32.add nFft F32.one) freq) sampleRate)).

Module MelFBank.

Record t : Type := mk {
  On : bool;
  NFilters : Z;
  LoHz : F32.t;
  HiHz : F32.t;
  LogOff : F32.t;
  LogMin : F32.t;
  LoMel : F32.t;
  HiMel : F32.t;
  FBankRenorm : RenormSpec.t
}.

Definition Initialize (m32 : Math32) (mfb : t) : t :=
  let LoHz := F32.of_int 120 in
  let HiHz := F32.of_int 10000 in
  mk true 32 LoHz HiHz F32.zero (F32.of_int (-10))
    (FreqToMel m32 LoHz) (FreqToMel m32 HiHz)
    (RenormSpec.Initialize (FBankRenorm mfb)).

End MelFBank.

(** * The input geometry

    The [Input] struct of the trial driver; its fields and [Initialize] are
    those of [AudInputSpec], the form it has in the repository's files,
    with the [int] fields the driver uses. *)

Module Input.

Record t : Type := mk {
  WinMsec : F32.t;
  StepMsec : F32.t;
  TrialMsec : F32.t;
  BorderSteps : Z;
  SampleRate : Z;
  Channels : Z;
  Channel : Z;
  WinSamples : Z;
  StepSamples : Z;
  TrialSamples : Z;
  TrialSteps : Z;
  TotalSteps : Z
}.

(** MSecToSamples converts milliseconds to samples, in terms of sample_rate *)
Definition MSecToSamples (msec : F32.t) (rate : Z) : Z :=
  F64.to_int
    (F64.Round
       (F64.mul (F64.mul (F64.of_f32 msec) (F64.of_bits 4611686018427388 (-62)))
          (F64.of_int rate))).

(** ComputeSamples computes the sample counts based on time and sample rate *)
Definition ComputeSamples (ais : t) : t :=
  let TrialSteps :=
    F64.to_int (F64.Round (F64.of_f32 (F32.div (TrialMsec ais) (StepMsec ais)))) in
  mk (WinMsec ais) (StepMsec ais) (TrialMsec ais) (BorderSteps ais) (SampleRate ais)
    (Channels ais) (Channel ais)
    (MSecToSamples (WinMsec ais) (SampleRate ais))
    (MSecToSamples (StepMsec ais) (SampleRate ais))
    (MSecToSamples (TrialMsec ais) (SampleRate ais))
    TrialSteps
    (GoInt.add (GoInt.mul 2 (BorderSteps ais)) TrialSteps).

Definition Initialize (ais : t) : t :=
  ComputeSamples
    (mk (F32.of_int 25) (F32.of_int 5) (F32.of_int 100) 12 16000 1 0
       (WinSamples ais) (StepSamples ais) (TrialSamples ais) (TrialSteps ais)
       (TotalSteps ais)).

End Input.

(** * The discrete cosine transform of [gonum.org/v1/gonum/fourier] and
    [math.Log], library code outside the repository. *)

Record Fourier : Type := mkFourier {
  DCT : list F64.t -> option (list F64.t);
  Log64 : F64.t -> F64.t
}.

Module Mel.
Import etensor.

Record t : Type := mk {
  MelPtsMel : Float32;
  MelPtsHz : Float32;
  MelPtsBin : Int32;
  MelFilters : Float32;
  MelFilterMaxBins : Z;
  MelNFiltersEff : Z;
  MelFBank : MelFBank.t;
  MelFBankOut : Float32;
  MelFBankTrialOut : Float32;
  DftSize : Z;
  DftUse : Z;
  Mfcc : MelCepstrumSpec.t;
  MfccDctOut : Float32;
  MfccDctTrialOut : Float32
}.

Definition set_MelPts (ptsMel ptsHz : Float32) (ptsBin : Int32) (m : t) : t :=
  mk ptsMel ptsHz ptsBin (MelFilters m) (MelFilterMaxBins m) (MelNFiltersEff m)
    (MelFBank m) (MelFBankOut m) (MelFBankTrialOut m) (DftSize m) (DftUse m)
    (Mfcc m) (MfccDctOut m) (MfccDctTrialOut m).
Definition set_MelFilters (filters : Float32) (maxBins : Z) (m : t) : t :=
  mk (MelPtsMel m) (MelPtsHz m) (MelPtsBin m) filters maxBins (MelNFiltersEff m)
    (MelFBank m) (MelFBankOut m) (MelFBankTrialOut m) (DftSize m) (DftUse m)
    (Mfcc m) (MfccDctOut m) (MfccDctTrialOut m).
Definition set_MelNFiltersEff (eff : Z) (m : t) : t :=
  mk (MelPtsMel m) (MelPtsHz m) (MelPtsBin m) (MelFilters m) (MelFilterMaxBins m) eff
    (MelFBank m) (MelFBankOut m) (MelFBankTrialOut m) (DftSize m) (DftUse m)
    (Mfcc m) (MfccDctOut m) (MfccDctTrialOut m).
Definition set_MelFBank (fb : MelFBank.t) (m : t) : t :=
  mk (MelPtsMel m) (MelPtsHz m) (MelPtsBin m) (MelFilters m) (MelFilterMaxBins m)
    (MelNFiltersEff m) fb (MelFBankOut m) (MelFBankTrialOut m) (DftSize m) (DftUse m)
    (Mfcc m) (MfccDctOut m) (MfccDctTrialOut m).
Definition set_MelFBankOut (out trial : Float32) (m : t) : t :=
  mk (MelPtsMel m) (MelPtsHz m) (MelPtsBin m) (MelFilters m) (MelFilterMaxBins m)
    (MelNFiltersEff m) (MelFBank m) out trial (DftSize m) (DftUse m)
    (Mfcc m) (MfccDctOut m) (MfccDctTrialOut m).
Definition set_DftUse (dftUse : Z) (m : t) : t :=
  mk (MelPtsMel m) (MelPtsHz m) (MelPtsBin m) (MelFilters m) (MelFilterMaxBins m)
    (MelNFiltersEff m) (MelFBank m) (MelFBankOut m) (MelFBankTrialOut m) (DftSize m)
    dftUse (Mfcc m) (MfccDctOut m) (MfccDctTrialOut m).
Definition set_Mfcc (mc : MelCepstrumSpec.t) (m : t) : t :=
  mk (MelPtsMel m) (MelPtsHz m) (MelPtsBin m) (MelFilters m) (MelFilterMaxBins m)
    (MelNFiltersEff m) (MelFBank m) (MelFBankOut m) (MelFBankTrialOut m) (DftSize m)
    (DftUse m) mc (MfccDctOut m) (MfccDctTrialOut m).
Definition set_MfccDctOut (out trial : Float32) (m : t) : t :=
  mk (MelPtsMel m) (MelPtsHz m) (MelPtsBin m) (MelFilters m) (MelFilterMaxBins m)
    (MelNFiltersEff m) (MelFBank m) (MelFBankOut m) (MelFBankTrialOut m) (DftSize m)
    (DftUse m) (Mfcc m) out trial.

(** The scale points of [InitFilters]: [for idx := 0; idx < MelNFiltersEff; idx++]. *)
Fixpoint InitFilters_points (m32 : Math32) (k : nat) (idx : Z)
  (LoMel melIncr dftUse sampleRate : F32.t)
  (pts : Float32 * Float32 * Int32) : option (Float32 * Float32 * Int32) :=
  match k with
  | O => Some pts
  | S k' =>
      let '(ptsMel, ptsHz, ptsBin) := pts in
      let ml := F32.add LoMel (F32.mul (F32.of_int idx) melIncr) in
      let hz := MelToFreq m32 ml in
      let bin := FreqToBin hz dftUse sampleRate in
      ptsMel ← Set1D ptsMel idx ml;
      ptsHz ← Set1D ptsHz idx hz;
      ptsBin ← Set1D ptsBin idx (int_to_int32 bin);
      InitFilters_points m32 k' (idx + 1) LoMel melIncr dftUse sampleRate
        (ptsMel, ptsHz, ptsBin)
  end.

(** A slope of one filter, [k] bins long from [bin], the weights written
    from column [fi] on: [fval := float32((bin - mnbin) / pkmin)] on the way
    up ([rising = true]), [float32((mxbin - bin) / pkmax)] on the way down.
    The quotient is taken on integers.  The result carries [bin] and [fi]
    on to the next loop. *)
Fixpoint InitFilters_slope (rising : bool) (k : nat) (f edge divisor bin fi : Z)
  (filters : Float32) : option (Z * Z * Float32) :=
  match k with
  | O => Some (bin, fi, filters)
  | S k' =>
      q ← GoInt.quo (if rising then GoInt.sub bin edge else GoInt.sub edge bin) divisor;
      filters ← SetAt filters [f; fi] (F32.of_int q);
      InitFilters_slope rising k' f edge divisor (bin + 1) (fi + 1) filters
  end.

(** The body of [for f := 0; f < NFilters; f++]. *)
Definition InitFilters_filter (ptsBin : Int32) (f : Z) (filters : Float32)
  : option Float32 :=
  mnbin ← Value1D ptsBin f;
  pkbin ← Value1D ptsBin (f + 1);
  mxbin ← Value1D ptsBin (f + 2);
  let pkmin := GoInt.sub pkbin mnbin in
  let pkmax := GoInt.sub mxbin pkbin in
  '(bin, fi, filters) ←
    InitFilters_slope true (Z.to_nat (pkbin - mnbin + 1)) f mnbin pkmin mnbin 0 filters;
  '(_, _, filters) ←
    InitFilters_slope false (Z.to_nat (mxbin - bin + 1)) f mxbin pkmax bin fi filters;
  Some filters.

Fixpoint InitFilters_weights (k : nat) (f : Z) (ptsBin : Int32) (filters : Float32)
  : option Float32 :=
  match k with
  | O => Some filters
  | S k' =>
      filters ← InitFilters_filter ptsBin f filters;
      InitFilters_weights k' (f + 1) ptsBin filters
  end.

(** InitFilters *)
Definition InitFilters (m32 : Math32) (mel : t) (dftUse sampleRate : Z) : option t :=
  let mel := set_DftUse dftUse mel in
  let NFilters := MelFBank.NFilters (MelFBank mel) in
  let eff := GoInt.add NFilters 2 in
  let mel := set_MelNFiltersEff eff mel in
  ptsMel ← SetShape F32.zero (MelPtsMel mel) [eff];
  ptsHz ← SetShape F32.zero (MelPtsHz mel) [eff];
  ptsBin ← SetShape 0 (MelPtsBin mel) [eff];
  let melIncr :=
    F32.div (F32.sub (MelFBank.HiMel (MelFBank mel)) (MelFBank.LoMel (MelFBank mel)))
      (F32.of_int (GoInt.add NFilters 1)) in
  '(ptsMel, ptsHz, ptsBin) ←
    InitFilters_points m32 (Z.to_nat eff) 0 (MelFBank.LoMel (MelFBank mel)) melIncr
      (F32.of_int dftUse) (F32.of_int sampleRate) (ptsMel, ptsHz, ptsBin);
  let mel := set_MelPts ptsMel ptsHz ptsBin mel in
  hi ← Value1D ptsBin (GoInt.sub eff 1);
  lo ← Value1D ptsBin (GoInt.sub eff 3);
  let maxBins := GoInt.add (GoInt.sub hi lo) 1 in
  filters ← SetShape F32.zero (MelFilters mel) [NFilters; maxBins];
  filters ← InitFilters_weights (Z.to_nat NFilters) 0 ptsBin filters;
  Some (set_MelFilters filters maxBins mel).

(** Initialize *)
Definition Initialize (m32 : Math32) (mel : t) (dftUse winSamples sampleRate : Z)
  : option t :=
  let mel := set_DftUse dftUse mel in
  let mel := set_MelFBank (MelFBank.Initialize m32 (MelFBank mel)) mel in
  InitFilters m32 mel dftUse sampleRate.

(** NeedsInit checks to see if we need to reinitialize *)
Definition NeedsInit (mel : t) (winSamples : Z) : bool :=
  negb (DftSize mel =? winSamples)
  || negb (MelNFiltersEff mel =? GoInt.add (MelFBank.NFilters (MelFBank mel)) 2).

(** The weighted sum of [MelFilterDft] over the bins of one filter:
    [for bin := minBin; bin < maxBin; bin, fi = bin+1, fi+1]. *)
Fixpoint MelFilterDft_sum (k : nat) (bin fi mi : Z) (filters dftPowerOut : Float32)
  (sum : F32.t) : option F32.t :=
  match k with
  | O => Some sum
  | S k' =>
      fVal ← Value filters [mi; fi];
      pVal ← Value1D dftPowerOut bin;
      MelFilterDft_sum k' (bin + 1) (fi + 1) mi filters dftPowerOut
        (F32.add sum (F32.mul fVal pVal))
  end.

(** From the sum of one filter to its output value: offset, log with its
    floor, renormalization and clamping. *)
Definition MelFilterDft_val (m32 : Math32) (fb : MelFBank.t) (sum : F32.t) : F32.t :=
  let rn := MelFBank.FBankRenorm fb in
  let sum := F32.add sum (MelFBank.LogOff fb) in
  let val := if F32.eqb sum F32.zero then MelFBank.LogMin fb else Log m32 sum in
  let val := if RenormSpec.On rn then F32.sub val (RenormSpec.RenormMin rn) else val in
  let val := if F32.ltb val F32.zero then F32.zero else val in
  let val := F32.mul val (RenormSpec.RenormScale rn) in
  if F32.ltb F32.one val then F32.one else val.

(** The value [MelFilterDft] computes for filter [f]. *)
Definition MelFilterDft_filter (m32 : Math32) (mel : t) (f : Z) (dftPowerOut : Float32)
  : option F32.t :=
  minBin ← Value1D (MelPtsBin mel) f;
  maxBin ← Value1D (MelPtsBin mel) (f + 2);
  sum ← MelFilterDft_sum (Z.to_nat (maxBin - minBin)) minBin 0 f
           (MelFilters mel) dftPowerOut F32.zero;
  Some (MelFilterDft_val m32 (MelFBank mel) sum).

(** [for f := 0; f < NFilters; f, mi = f+1, mi+1], on the two output
    tensors. *)
Fixpoint MelFilterDft_loop (m32 : Math32) (k : nat) (f : Z) (mel : t) (ch step : Z)
  (dftPowerOut : Float32) (out : Float32 * Float32) : option (Float32 * Float32) :=
  match k with
  | O => Some out
  | S k' =>
      let '(fbankOut, trialOut) := out in
      val ← MelFilterDft_filter m32 mel f dftPowerOut;
      fbankOut ← Set1D fbankOut f val;
      trialOut ← SetAt trialOut [f; step; ch] val;
      MelFilterDft_loop m32 k' (f + 1) mel ch step dftPowerOut (fbankOut, trialOut)
  end.

(** MelFilterDft *)
Definition MelFilterDft (m32 : Math32) (mel : t) (ch step : Z) (dftPowerOut : Float32)
  : option t :=
  '(fbankOut, trialOut) ←
    MelFilterDft_loop m32 (Z.to_nat (MelFBank.NFilters (MelFBank mel))) 0 mel ch step
      dftPowerOut (MelFBankOut mel, MelFBankTrialOut mel);
  Some (set_MelFBankOut fbankOut trialOut mel).

(** One loop of [CopyStepFromStep] over the filters of a trial tensor. *)
Fixpoint CopyStepFromStep_loop (k : nat) (i toStep fmStep ch : Z) (trial : Float32)
  : option Float32 :=
  match k with
  | O => Some trial
  | S k' =>
      val ← Value trial [i; fmStep; ch];
      trial ← SetAt trial [i; toStep; ch] val;
      CopyStepFromStep_loop k' (i + 1) toStep fmStep ch trial
  end.

(** CopyStepFromStep *)
Definition CopyStepFromStep (mel : t) (toStep fmStep ch : Z) : option t :=
  if MelFBank.On (MelFBank mel) then
    let n := Z.to_nat (MelFBank.NFilters (MelFBank mel)) in
    trial ← CopyStepFromStep_loop n 0 toStep fmStep ch (MelFBankTrialOut mel);
    let mel := set_MelFBankOut (MelFBankOut mel) trial mel in
    if MelCepstrumSpec.On (Mfcc mel) then
      dct ← CopyStepFromStep_loop n 0 toStep fmStep ch (MfccDctTrialOut mel);
      Some (set_MfccDctOut (MfccDctOut mel) dct mel)
    else Some mel
  else Some mel.

(** InitMatrices sets the shape of all output matrices *)
Definition InitMatrices (mel : t) (input : Input.t) : option t :=
  let NFilters := MelFBank.NFilters (MelFBank mel) in
  let trialShape := [NFilters; Input.TotalSteps input; Input.Channels input] in
  if MelFBank.On (MelFBank mel) then
    out ← SetShape F32.zero (MelFBankOut mel) [NFilters];
    trial ← SetShape F32.zero (MelFBankTrialOut mel) trialShape;
    let mel := set_MelFBankOut out trial mel in
    if MelCepstrumSpec.On (Mfcc mel) then
      out ← SetShape F32.zero (MfccDctOut mel) [NFilters];
      trial ← SetShape F32.zero (MfccDctTrialOut mel) trialShape;
      Some (set_MfccDctOut out trial mel)
    else Some mel
  else Some mel.

(** The built-in [copy(dst, src)]: the values of [dst] afterwards. *)
Definition copy {A} (dst src : list A) : list A :=
  take (length dst) src ++ drop (length src) dst.

(** The last loop of [CepstrumDctMel]. *)
Fixpoint CepstrumDctMel_loop (k : nat) (i step ch : Z) (mfccDctOut : list F64.t)
  (trial : Float32) : option Float32 :=
  match k with
  | O => Some trial
  | S k' =>
      v ← Slice.get mfccDctOut i;
      trial ← SetAt trial [i; step; ch] (F64.to_f32 v);
      CepstrumDctMel_loop k' (i + 1) step ch mfccDctOut trial
  end.

(** CepstrumDctMel *)
Definition CepstrumDctMel (fl : Fourier) (mel : t) (ch step : Z) : option t :=
  let out := set_Values (copy (Values (MfccDctOut mel)) (Values (MelFBankOut mel)))
               (MfccDctOut mel) in
  mfccDctOut ← DCT fl (map F64.of_f32 (Values out));
  el0 ← Slice.get mfccDctOut 0;
  (* replace with log energy instead.. *)
  mfccDctOut ← Slice.set mfccDctOut 0
                  (Log64 fl (F64.add F64.one (F64.mul el0 el0)));
  trial ← CepstrumDctMel_loop (Z.to_nat (MelFBank.NFilters (MelFBank mel))) 0 step ch
             mfccDctOut (MfccDctTrialOut mel);
  Some (set_MfccDctOut out trial mel).

(** FilterWindow filters the current window_in input data according to
    current settings; [dftPowerOut] is the power spectrum of the window. *)
Definition FilterWindow (m32 : Math32) (fl : Fourier) (mel : t) (ch step : Z)
  (windowIn dftPowerOut : Float32) (firstStep : bool) : option t :=
  if MelFBank.On (MelFBank mel) then
    mel ← MelFilterDft m32 mel ch step dftPowerOut;
    if MelCepstrumSpec.On (Mfcc mel) then CepstrumDctMel fl mel ch step
    else Some mel
  else Some mel.

End Mel.

(** * The trial driver [AuditoryProc] *)

(** The gabor specification, with the fields the driver reads. *)
Module Gabor.

Record t : Type := mk {
  On : bool;
  SizeTime : Z;
  SizeFreq : Z;
  SpaceTime : Z;
  SpaceFreq : Z;
  Gain : F32.t;
  NFilters : Z;
  ShapeX : Z;
  ShapeY : Z
}.

Definition set_On (b : bool) (g : t) : t :=
  mk b (SizeTime g) (SizeFreq g) (SpaceTime g) (SpaceFreq g) (Gain g) (NFilters g)
    (ShapeX g) (ShapeY g).

End Gabor.

(** The tensors of the DFT stage the driver shapes and hands on. *)
Module Dft.
Import etensor.

Record t : Type := mk {
  LogPow : bool;
  DftOut : Float32;
  DftPowerOut : Float32;
  DftPowerTrialOut : Float32;
  DftLogPowerOut : Float32;
  DftLogPowerTrialOut : Float32
}.

End Dft.

(** The data table of [github.com/emer/etable/etable]: rows and named
    columns. *)
Record Table : Type := mkTable {
  Rows : Z;
  Cols : list (string * etensor.Float32)
}.

Module AuditoryProc.
Import etensor.

Record t : Type := mk {
  Mel : Mel.t;
  Dft : Dft.t;
  Data : option Table;
  Input : Input.t;
  Gabor1 : Gabor.t;
  Gabor2 : Gabor.t;
  Gabor3 : Gabor.t;
  Gabor1Filters : Float32;
  Gabor2Filters : Float32;
  Gabor3Filters : Float32;
  FirstStep : bool;
  InputPos : Z;
  TrialStartPos : Z;
  TrialEndPos : Z;
  SoundFull : Float32;
  WindowIn : Float32;
  UseInhib : bool;
  Gabor1Raw : Float32;
  Gabor1Out : Float32;
  Gabor2Raw : Float32;
  Gabor2Out : Float32;
  Gabor3Raw : Float32;
  Gabor3Out : Float32
}.

Definition set_Mel (x : Mel.t) (ap : t) : t :=
  mk x (Dft ap) (Data ap) (Input ap) (Gabor1 ap) (Gabor2 ap) (Gabor3 ap)
    (Gabor1Filters ap) (Gabor2Filters ap) (Gabor3Filters ap) (FirstStep ap)
    (InputPos ap) (TrialStartPos ap) (TrialEndPos ap) (SoundFull ap) (WindowIn ap)
    (UseInhib ap) (Gabor1Raw ap) (Gabor1Out ap) (Gabor2Raw ap) (Gabor2Out ap)
    (Gabor3Raw ap) (Gabor3Out ap).
Definition set_Dft (x : Dft.t) (ap : t) : t :=
  mk (Mel ap) x (Data ap) (Input ap) (Gabor1 ap) (Gabor2 ap) (Gabor3 ap)
    (Gabor1Filters ap) (Gabor2Filters ap) (Gabor3Filters ap) (FirstStep ap)
    (InputPos ap) (TrialStartPos ap) (TrialEndPos ap) (SoundFull ap) (WindowIn ap)
    (UseInhib ap) (Gabor1Raw ap) (Gabor1Out ap) (Gabor2Raw ap) (Gabor2Out ap)
    (Gabor3Raw ap) (Gabor3Out ap).
Definition set_Data (x : option Table) (ap : t) : t :=
  mk (Mel ap) (Dft ap) x (Input ap) (Gabor1 ap) (Gabor2 ap) (Gabor3 ap)
    (Gabor1Filters ap) (Gabor2Filters ap) (Gabor3Filters ap) (FirstStep ap)
    (InputPos ap) (TrialStartPos ap) (TrialEndPos ap) (SoundFull ap) (WindowIn ap)
    (UseInhib ap) (Gabor1Raw ap) (Gabor1Out ap) (Gabor2Raw ap) (Gabor2Out ap)
    (Gabor3Raw ap) (Gabor3Out ap).
Definition set_Input (x : Input.t) (ap : t) : t :=
  mk (Mel ap) (Dft ap) (Data ap) x (Gabor1 ap) (Gabor2 ap) (Gabor3 ap)
    (Gabor1Filters ap) (Gabor2Filters ap) (Gabor3Filters ap) (FirstStep ap)
    (InputPos ap) (TrialStartPos ap) (TrialEndPos ap) (SoundFull ap) (WindowIn ap)
    (UseInhib ap) (Gabor1Raw ap) (Gabor1Out ap) (Gabor2Raw ap) (Gabor2Out ap)
    (Gabor3Raw ap) (Gabor3Out ap).
Definition set_Gabor1 (x : Gabor.t) (ap : t) : t :=
  mk (Mel ap) (Dft ap) (Data ap) (Input ap) x (Gabor2 ap) (Gabor3 ap)
    (Gabor1Filters ap) (Gabor2Filters ap) (Gabor3Filters ap) (FirstStep ap)
    (InputPos ap) (TrialStartPos ap) (TrialEndPos ap) (SoundFull ap) (WindowIn ap)
    (UseInhib ap) (Gabor1Raw ap) (Gabor1Out ap) (Gabor2Raw ap) (Gabor2Out ap)
    (Gabor3Raw ap) (Gabor3Out ap).
Definition set_GaborFilters (f1 f2 f3 : Float32) (ap : t) : t :=
  mk (Mel ap) (Dft ap) (Data ap) (Input ap) (Gabor1 ap) (Gabor2 ap) (Gabor3 ap)
    f1 f2 f3 (FirstStep ap)
    (InputPos ap) (TrialStartPos ap) (TrialEndPos ap) (SoundFull ap) (WindowIn ap)
    (UseInhib ap) (Gabor1Raw ap) (Gabor1Out ap) (Gabor2Raw ap) (Gabor2Out ap)
    (Gabor3Raw ap) (Gabor3Out ap).
Definition set_FirstStep (x : bool) (ap : t) : t :=
  mk (Mel ap) (Dft ap) (Data ap) (Input ap) (Gabor1 ap) (Gabor2 ap) (Gabor3 ap)
    (Gabor1Filters ap) (Gabor2Filters ap) (Gabor3Filters ap) x
    (InputPos ap) (TrialStartPos ap) (TrialEndPos ap) (SoundFull ap) (WindowIn ap)
    (UseInhib ap) (Gabor1Raw ap) (Gabor1Out ap) (Gabor2Raw ap) (Gabor2Out ap)
    (Gabor3Raw ap) (Gabor3Out ap).
Definition set_InputPos (x : Z) (ap : t) : t :=
  mk (Mel ap) (Dft ap) (Data ap) (Input ap) (Gabor1 ap) (Gabor2 ap) (Gabor3 ap)
    (Gabor1Filters ap) (Gabor2Filters ap) (Gabor3Filters ap) (FirstStep ap)
    x (TrialStartPos ap) (TrialEndPos ap) (SoundFull ap) (WindowIn ap)
    (UseInhib ap) (Gabor1Raw ap) (Gabor1Out ap) (Gabor2Raw ap) (Gabor2Out ap)
    (Gabor3Raw ap) (Gabor3Out ap).
Definition set_TrialPos (start stop : Z) (ap : t) : t :=
  mk (Mel ap) (Dft ap) (Data ap) (Input ap) (Gabor1 ap) (Gabor2 ap) (Gabor3 ap)
    (Gabor1Filters ap) (Gabor2Filters ap) (Gabor3Filters ap) (FirstStep ap)
    (InputPos ap) start stop (SoundFull ap) (WindowIn ap)
    (UseInhib ap) (Gabor1Raw ap) (Gabor1Out ap) (Gabor2Raw ap) (Gabor2Out ap)
    (Gabor3Raw ap) (Gabor3Out ap).
Definition set_WindowIn (x : Float32) (ap : t) : t :=
  mk (Mel ap) (Dft ap) (Data ap) (Input ap) (Gabor1 ap) (Gabor2 ap) (Gabor3 ap)
    (Gabor1Filters ap) (Gabor2Filters ap) (Gabor3Filters ap) (FirstStep ap)
    (InputPos ap) (TrialStartPos ap) (TrialEndPos ap) (SoundFull ap) x
    (UseInhib ap) (Gabor1Raw ap) (Gabor1Out ap) (Gabor2Raw ap) (Gabor2Out ap)
    (Gabor3Raw ap) (Gabor3Out ap).
Definition set_UseInhib (x : bool) (ap : t) : t :=
  mk (Mel ap) (Dft ap) (Data ap) (Input ap) (Gabor1 ap) (Gabor2 ap) (Gabor3 ap)
    (Gabor1Filters ap) (Gabor2Filters ap) (Gabor3Filters ap) (FirstStep ap)
    (InputPos ap) (TrialStartPos ap) (TrialEndPos ap) (SoundFull ap) (WindowIn ap)
    x (Gabor1Raw ap) (Gabor1Out ap) (Gabor2Raw ap) (Gabor2Out ap)
    (Gabor3Raw ap) (Gabor3Out ap).
Definition set_Gabor1Out (raw out : Float32) (ap : t) : t :=
  mk (Mel ap) (Dft ap) (Data ap) (Input ap) (Gabor1 ap) (Gabor2 ap) (Gabor3 ap)
    (Gabor1Filters ap) (Gabor2Filters ap) (Gabor3Filters ap) (FirstStep ap)
    (InputPos ap) (TrialStartPos ap) (TrialEndPos ap) (SoundFull ap) (WindowIn ap)
    (UseInhib ap) raw out (Gabor2Raw ap) (Gabor2Out ap)
    (Gabor3Raw ap) (Gabor3Out ap).
Definition set_Gabor2Out (raw out : Float32) (ap : t) : t :=
  mk (Mel ap) (Dft ap) (Data ap) (Input ap) (Gabor1 ap) (Gabor2 ap) (Gabor3 ap)
    (Gabor1Filters ap) (Gabor2Filters ap) (Gabor3Filters ap) (FirstStep ap)
    (InputPos ap) (TrialStartPos ap) (TrialEndPos ap) (SoundFull ap) (WindowIn ap)
    (UseInhib ap) (Gabor1Raw ap) (Gabor1Out ap) raw out
    (Gabor3Raw ap) (Gabor3Out ap).
Definition set_Gabor3Out (raw out : Float32) (ap : t) : t :=
  mk (Mel ap) (Dft ap) (Data ap) (Input ap) (Gabor1 ap) (Gabor2 ap) (Gabor3 ap)
    (Gabor1Filters ap) (Gabor2Filters ap) (Gabor3Filters ap) (FirstStep ap)
    (InputPos ap) (TrialStartPos ap) (TrialEndPos ap) (SoundFull ap) (WindowIn ap)
    (UseInhib ap) (Gabor1Raw ap) (Gabor1Out ap) (Gabor2Raw ap) (Gabor2Out ap)
    raw out.

(** The collaborators of the driver that are not in the repository's
    files: the math libraries, the DFT stage (FFT and power of the window,
    with its smoothing state), the methods of the gabor specification, the
    inhibition pass (leabra's FFFB inhibition and noisy XX1 activation over
    the sub-space of one channel), and the table writer. *)
Record Ext : Type := mkExt {
  math32 : Math32;
  fourier : Fourier;
  DftFilter : Dft.t -> Z -> Z -> Float32 -> bool -> option Dft.t;
  GaborInitialize : Gabor.t -> Gabor.t;
  GaborSetShape : Gabor.t -> Z -> Z -> Gabor.t;
  GaborInitFilters : Gabor.t -> Float32 -> option Float32;
  Inhibit : Float32 -> Float32 -> Z -> option Float32;
  AddRows : Table -> Z -> Table;
  MelOutputToTable : t -> Table -> Z -> bool -> Table
}.

Section Driver.
Context (ext : Ext).

(** InitSound *)
Definition InitSound (ap : t) : t := set_InputPos 0 ap.

(** InitGaborFilters *)
Definition InitGaborFilters (ap : t) : option t :=
  f1 ← (if Gabor.On (Gabor1 ap)
        then GaborInitFilters ext (Gabor1 ap) (Gabor1Filters ap)
        else Some (Gabor1Filters ap));
  f2 ← (if Gabor.On (Gabor2 ap)
        then GaborInitFilters ext (Gabor2 ap) (Gabor2Filters ap)
        else Some (Gabor2Filters ap));
  f3 ← (if Gabor.On (Gabor3 ap)
        then GaborInitFilters ext (Gabor3 ap) (Gabor3Filters ap)
        else Some (Gabor3Filters ap));
  Some (set_GaborFilters f1 f2 f3 ap).

(** The shape of the output of one gabor bank. *)
Definition gabor_shape (ap : t) (g : Gabor.t) : list Z :=
  [Input.Channels (Input ap); Gabor.NFilters g; 2; Gabor.ShapeY g; Gabor.ShapeX g].

Definition InitOutMatrix_gabor (ap : t) (g : Gabor.t) (raw out : Float32)
  : option (Float32 * Float32) :=
  if Gabor.On g then
    raw ← SetShape F32.zero raw (gabor_shape ap g);
    out ← SetShape F32.zero out (gabor_shape ap g);
    Some (raw, out)
  else Some (raw, out).

(** InitOutMatrix sets the shape of all output matrices *)
Definition InitOutMatrix (ap : t) : option t :=
  let input := Input ap in
  let mel := Mel ap in
  let dft := Dft ap in
  let NFilters := MelFBank.NFilters (Mel.MelFBank mel) in
  let dftTrial := [Mel.DftUse mel; Input.TotalSteps input; Input.Channels input] in
  let melTrial := [NFilters; Input.TotalSteps input; Input.Channels input] in
  windowIn ← SetShape F32.zero (WindowIn ap) [Input.WinSamples input];
  dftOut ← SetShape F32.zero (Dft.DftOut dft) [Mel.DftSize mel];
  powerOut ← SetShape F32.zero (Dft.DftPowerOut dft) [Mel.DftUse mel];
  powerTrial ← SetShape F32.zero (Dft.DftPowerTrialOut dft) dftTrial;
  '(logOut, logTrial) ←
    (if Dft.LogPow dft then
       logOut ← SetShape F32.zero (Dft.DftLogPowerOut dft) [Mel.DftUse mel];
       logTrial ← SetShape F32.zero (Dft.DftLogPowerTrialOut dft) dftTrial;
       Some (logOut, logTrial)
     else Some (Dft.DftLogPowerOut dft, Dft.DftLogPowerTrialOut dft));
  let ap := set_WindowIn windowIn ap in
  let ap := set_Dft (Dft.mk (Dft.LogPow dft) dftOut powerOut powerTrial logOut logTrial) ap in
  if MelFBank.On (Mel.MelFBank mel) then
    out ← SetShape F32.zero (Mel.MelFBankOut mel) [NFilters];
    trial ← SetShape F32.zero (Mel.MelFBankTrialOut mel) melTrial;
    let mel := Mel.set_MelFBankOut out trial mel in
    '(raw1, out1) ← InitOutMatrix_gabor ap (Gabor1 ap) (Gabor1Raw ap) (Gabor1Out ap);
    '(raw2, out2) ← InitOutMatrix_gabor ap (Gabor2 ap) (Gabor2Raw ap) (Gabor2Out ap);
    '(raw3, out3) ← InitOutMatrix_gabor ap (Gabor3 ap) (Gabor3Raw ap) (Gabor3Out ap);
    let ap := set_Gabor3Out raw3 out3 (set_Gabor2Out raw2 out2 (set_Gabor1Out raw1 out1 ap)) in
    if MelCepstrumSpec.On (Mel.Mfcc mel) then
      out ← SetShape F32.zero (Mel.MfccDctOut mel) [NFilters];
      trial ← SetShape F32.zero (Mel.MfccDctTrialOut mel) melTrial;
      Some (set_Mel (Mel.set_MfccDctOut out trial mel) ap)
    else Some (set_Mel mel ap)
  else Some ap.

(** StartNewSound sets a few vars to 0 before processing a new sound *)
Definition StartNewSound (ap : t) : t :=
  let ap := set_FirstStep true ap in
  let ap := set_InputPos 0 ap in
  set_TrialPos 0 (GoInt.add 0 (Input.TrialSamples (Input ap))) ap.

(** NeedsInit checks to see if we need to reinitialize AuditoryProc *)
Definition NeedsInit (ap : t) : bool :=
  Mel.NeedsInit (Mel ap) (Input.WinSamples (Input ap)).

Fixpoint InitDataTable_loop (k : nat) (ch : Z) (ap : t) (dt : Table) : Table :=
  match k with
  | O => dt
  | S k' => InitDataTable_loop k' (ch + 1) ap (MelOutputToTable ext ap dt ch true)
  end.

(** InitDataTable readies ap.Data *)
Definition InitDataTable (ap : t) : t :=
  match Data ap with
  | None => ap
  | Some dt =>
      let input := Input ap in
      if 1 <? Input.Channels input
      then set_Data (Some (InitDataTable_loop (Z.to_nat (Input.Channels input)) 0 ap dt)) ap
      else set_Data (Some (MelOutputToTable ext ap dt (Input.Channel input) true)) ap
  end.

(** Initialize.  [Mel.Initialize] is the one of mel.go; its first argument
    is the number of dft outputs to use, "dft_size / 2 + 1". *)
Definition Initialize (ap : t) : option t :=
  let ap := set_Input (Input.Initialize (Input ap)) ap in
  let input := Input ap in
  mel ← Mel.Initialize (math32 ext) (Mel ap)
           (GoInt.add (Z.quot (Input.WinSamples input) 2) 1)
           (Input.WinSamples input) (Input.SampleRate input);
  let ap := set_Mel mel ap in
  let g := Gabor.set_On true (GaborInitialize ext (Gabor1 ap)) in
  let g := GaborSetShape ext g (Input.TrialSteps input)
             (MelFBank.NFilters (Mel.MelFBank mel)) in
  let ap := set_Gabor1 g ap in
  let ap := set_Mel (Mel.set_Mfcc (MelCepstrumSpec.Initialize (Mel.Mfcc mel)) mel) ap in
  ap ← InitGaborFilters ap;
  ap ← InitOutMatrix ap;
  let ap := set_Data (Some (mkTable 0 [])) ap in
  let ap := InitDataTable ap in
  let ap := InitSound ap in
  Some (set_UseInhib true ap).

(** InputStepsLeft returns the number of steps left to process in the
    current input sound *)
Definition InputStepsLeft (ap : t) : option Z :=
  let samplesLeft := GoInt.sub (Slice.len (Values (SoundFull ap))) (InputPos ap) in
  GoInt.quo samplesLeft (Input.StepSamples (Input ap)).

(** A slice expression [s[lo:hi]]. *)
Definition slice {A} (s : list A) (lo hi : Z) : option (list A) :=
  if (0 <=? lo) && (lo <=? hi) && (hi <=? Slice.len s)
  then Some (take (Z.to_nat (hi - lo)) (drop (Z.to_nat lo) s)) else None.

(** SoundToWindow gets sound from sound_full at given position and channel,
    into window_in -- pads with zeros for any amount not available *)
Definition SoundToWindow (ap : t) (inPos ch : Z) : option t :=
  let WinSamples := Input.WinSamples (Input ap) in
  let sound := Values (SoundFull ap) in
  let samplesAvail := GoInt.sub (Slice.len sound) inPos in
  let samplesCopy :=
    F32.to_int (F32.Min (F32.of_int samplesAvail) (F32.of_int WinSamples)) in
  win ← (if 0 <? samplesCopy then
           if NumDims (SoundFull ap) =? 1 then
             src ← slice sound inPos (GoInt.add samplesCopy inPos);
             Some (Mel.copy (Values (WindowIn ap)) src)
           else Some (Values (WindowIn ap))
         else Some (Values (WindowIn ap)));
  (* prevent negatives here -- otherwise overflows *)
  let samplesCopy := F32.to_int (F32.Max (F32.of_int samplesCopy) F32.zero) in
  (* pad remainder with zero *)
  let zeroN := GoInt.sub WinSamples samplesCopy in
  win ← (if 0 <? zeroN then
           let sz := GoInt.mul zeroN 4 in
           if sz <? 0 then None
           else
             tail ← slice win samplesCopy (Slice.len win);
             Some (take (Z.to_nat samplesCopy) win
                   ++ Mel.copy tail (replicate (Z.to_nat sz) F32.zero))
         else Some win);
  Some (set_WindowIn (set_Values win (WindowIn ap)) ap).

(** [for s := 0; s < borderEff; s++] of [WrapBorder]. *)
Fixpoint WrapBorder_loop (k : nat) (s srcStStep ch : Z) (mel : Mel.t) : option Mel.t :=
  match k with
  | O => Some mel
  | S k' =>
      mel ← Mel.CopyStepFromStep mel s (GoInt.add srcStStep s) ch;
      WrapBorder_loop k' (s + 1) srcStStep ch mel
  end.

(** WrapBorder *)
Definition WrapBorder (ap : t) (ch : Z) : option t :=
  let input := Input ap in
  if Input.BorderSteps input =? 0 then Some ap
  else
    let borderEff := GoInt.mul 2 (Input.BorderSteps input) in
    let srcStStep := GoInt.sub (Input.TotalSteps input) borderEff in
    mel ← WrapBorder_loop (Z.to_nat borderEff) 0 srcStStep ch (Mel ap);
    Some (set_Mel mel ap).



(** ProcessStep process a step worth of sound input from current input_pos,
    and increment input_pos by input.step_samples.  The window goes
    through the DFT stage, then through [Mel.FilterWindow]. *)
Definition ProcessStep (ap : t) (ch step : Z) : option t :=
  ap ← SoundToWindow ap (InputPos ap) ch;
  dft ← DftFilter ext (Dft ap) ch step (WindowIn ap) (FirstStep ap);
  let ap := set_Dft dft ap in
  mel ← Mel.FilterWindow (math32 ext) (fourier ext) (Mel ap) ch step (WindowIn ap)
           (Dft.DftPowerOut dft) (FirstStep ap);
  let ap := set_Mel mel ap in
  let ap := set_InputPos (GoInt.add (InputPos ap) (Input.StepSamples (Input ap))) ap in
  Some (set_FirstStep false ap).

(** The kernel sum of [GaborFilter], inner loop:
    [for ft := 0; ft < spec.SizeTime; ft++]. *)
Fixpoint GaborFilter_sum_time (k : nat) (ft ff fi flt inSt ch : Z)
  (filters trial : Float32) (fSum : F32.t) : option F32.t :=
  match k with
  | O => Some fSum
  | S k' =>
      fVal ← Value filters [ft; ff; fi];
      iVal ← Value trial [GoInt.add flt ff; GoInt.add inSt ft; ch];
      GaborFilter_sum_time k' (ft + 1) ff fi flt inSt ch filters trial
        (F32.add fSum (F32.mul fVal iVal))
  end.

(** [for ff := 0; ff < spec.SizeFreq; ff++] *)
Fixpoint GaborFilter_sum (k : nat) (ff fi flt inSt ch sizeTime : Z)
  (filters trial : Float32) (fSum : F32.t) : option F32.t :=
  match k with
  | O => Some fSum
  | S k' =>
      fSum ← GaborFilter_sum_time (Z.to_nat sizeTime) 0 ff fi flt inSt ch
               filters trial fSum;
      GaborFilter_sum k' (ff + 1) fi flt inSt ch sizeTime filters trial fSum
  end.

(** The two writes of one tap into one output tensor: the rectified pair
    at sign index 0 and 1. *)
Definition GaborFilter_write (tsr : Float32) (ch fi fIdx tIdx : Z) (v0 v1 : F32.t)
  : option Float32 :=
  tsr ← SetAt tsr [ch; fi; 0; fIdx; tIdx] v0;
  SetAt tsr [ch; fi; 1; fIdx; tIdx] v1.

(** [for fi := 0; fi < nf; fi++], on the pair (outRaw, out). *)
Fixpoint GaborFilter_filters (k : nat) (fi flt inSt ch fIdx tIdx : Z) (spec : Gabor.t)
  (filters trial : Float32) (o : Float32 * Float32) : option (Float32 * Float32) :=
  match k with
  | O => Some o
  | S k' =>
      let '(outRaw, out) := o in
      fSum ← GaborFilter_sum (Z.to_nat (Gabor.SizeFreq spec)) 0 fi flt inSt ch
               (Gabor.SizeTime spec) filters trial F32.zero;
      let pos := F32.leb F32.zero fSum in
      let act := F32.mul (Gabor.Gain spec) (F32.abs fSum) in
      let '(v0, v1) := if pos then (act, F32.zero) else (F32.zero, act) in
      outRaw ← GaborFilter_write outRaw ch fi fIdx tIdx v0 v1;
      out ← GaborFilter_write out ch fi fIdx tIdx v0 v1;
      GaborFilter_filters k' (fi + 1) flt inSt ch fIdx tIdx spec filters trial
        (outRaw, out)
  end.

(** [for flt := fMin; flt < fMax; flt, fIdx = flt+spec.SpaceFreq, fIdx+1]
    with its guard [if fIdx > outRaw.Dim(3) { ...; break }].  At most
    [Dim(3) + 1] passes get past the guard, so [k = Dim(3) + 2] steps
    always reach the end of the loop. *)
Fixpoint GaborFilter_freq (k : nat) (flt fIdx fMax inSt ch tIdx : Z) (spec : Gabor.t)
  (filters trial : Float32) (o : Float32 * Float32) : option (Float32 * Float32) :=
  match k with
  | O => Some o
  | S k' =>
      if flt <? fMax then
        d ← Dim (fst o) 3;
        if d <? fIdx then Some o
        else
          o ← GaborFilter_filters (Z.to_nat (Gabor.NFilters spec)) 0 flt inSt ch fIdx
                tIdx spec filters trial o;
          GaborFilter_freq k' (GoInt.add flt (Gabor.SpaceFreq spec)) (fIdx + 1) fMax
            inSt ch tIdx spec filters trial o
      else Some o
  end.

(** [for s := tMin; s < tMax; s, tIdx = s+spec.SpaceTime, tIdx+1] with its
    guard [if tIdx > outRaw.Dim(4) { ...; break }]. *)
Fixpoint GaborFilter_time (k : nat) (s tIdx tMax tOff fMin fMax ch : Z) (spec : Gabor.t)
  (filters trial : Float32) (o : Float32 * Float32) : option (Float32 * Float32) :=
  match k with
  | O => Some o
  | S k' =>
      if s <? tMax then
        let inSt := GoInt.sub s tOff in
        d ← Dim (fst o) 4;
        if d <? tIdx then Some o
        else
          o ← GaborFilter_freq (Z.to_nat (default 0 (Dim (fst o) 3) + 2)) fMin 0 fMax
                inSt ch tIdx spec filters trial o;
          GaborFilter_time k' (GoInt.add s (Gabor.SpaceTime spec)) (tIdx + 1) tMax tOff
            fMin fMax ch spec filters trial o
      else Some o
  end.

(** GaborFilter process filters that operate over an entire trial at a
    time; the result is the pair (outRaw, out). *)
Definition GaborFilter (ap : t) (ch : Z) (spec : Gabor.t)
  (filters outRaw out : Float32) : option (Float32 * Float32) :=
  let input := Input ap in
  let tHalfSz := Z.quot (Gabor.SizeTime spec) 2 in
  let tOff := GoInt.sub tHalfSz (Input.BorderSteps input) in
  let tMin := if tOff <? 0 then 0 else tOff in
  let tMax := GoInt.sub (Input.TrialSteps input) tMin in
  let fMin := 0 in
  let fMax := GoInt.sub (MelFBank.NFilters (Mel.MelFBank (Mel ap))) (Gabor.SizeFreq spec) in
  '(outRaw, out) ←
    GaborFilter_time (Z.to_nat (default 0 (Dim outRaw 4) + 2)) tMin 0 tMax tOff fMin fMax
      ch spec filters (Mel.MelFBankTrialOut (Mel ap)) (outRaw, out);
  if UseInhib ap then
    out ← Inhibit ext outRaw out ch;
    Some (outRaw, out)
  else Some (outRaw, out).

(** FilterTrial processes filters that operate over an entire trial at a time *)
Definition FilterTrial (ap : t) (ch : Z) : option t :=
  ap ← (if Gabor.On (Gabor1 ap) then
          '(raw, out) ← GaborFilter ap ch (Gabor1 ap) (Gabor1Filters ap)
                          (Gabor1Raw ap) (Gabor1Out ap);
          Some (set_Gabor1Out raw out ap)
        else Some ap);
  ap ← (if Gabor.On (Gabor2 ap) then
          '(raw, out) ← GaborFilter ap ch (Gabor2 ap) (Gabor2Filters ap)
                          (Gabor2Raw ap) (Gabor2Out ap);
          Some (set_Gabor2Out raw out ap)
        else Some ap);
  if Gabor.On (Gabor3 ap) then
    '(raw, out) ← GaborFilter ap ch (Gabor3 ap) (Gabor3Filters ap)
                    (Gabor3Raw ap) (Gabor3Out ap);
    Some (set_Gabor3Out raw out ap)
  else Some ap.

(** OutputToTable *)
Definition OutputToTable (ap : t) (ch : Z) : t :=
  match Data ap with
  | None => ap
  | Some dt =>
      if MelFBank.On (Mel.MelFBank (Mel ap))
      then set_Data (Some (MelOutputToTable ext ap dt ch false)) ap
      else ap
  end.

(** [for s := first; s < ap.Input.TotalSteps; s++ { ap.ProcessStep(ch, s) }] *)
Fixpoint ProcessTrial_steps (k : nat) (s ch : Z) (ap : t) : option t :=
  match k with
  | O => Some ap
  | S k' =>
      ap ← ProcessStep ap ch s;
      ProcessTrial_steps k' (s + 1) ch ap
  end.

(** The body of the channel loop of [ProcessTrial]: [wrap] is false on the
    first trial of a sound, where the whole buffer is filled, and true
    afterwards, where the border is wrapped and the steps start at
    [border]. *)
Definition ProcessTrial_channel (wrap : bool) (startPos border ch : Z) (ap : t)
  : option t :=
  (* always start at same place per channel *)
  let ap := set_InputPos startPos ap in
  ap ← (if wrap then WrapBorder ap ch else Some ap);
  let first := if wrap then border else 0 in
  ap ← ProcessTrial_steps (Z.to_nat (Input.TotalSteps (Input ap) - first)) first ch ap;
  ap ← FilterTrial ap ch;
  Some (OutputToTable ap ch).

(** [for ch := 0; ch < ap.Input.Channels; ch++] *)
Fixpoint ProcessTrial_channels (k : nat) (wrap : bool) (startPos border ch : Z) (ap : t)
  : option t :=
  match k with
  | O => Some ap
  | S k' =>
      ap ← ProcessTrial_channel wrap startPos border ch ap;
      ProcessTrial_channels k' wrap startPos border (ch + 1) ap
  end.

(** ProcessTrial processes a full trial worth of sound -- iterates over
    steps to fill a trial's worth of sound data.  The result is the state
    and the returned bool. *)
Definition ProcessTrial (ap : t) : option (t * bool) :=
  ap ← (if NeedsInit ap then Initialize ap else Some ap);
  dt ← Data ap;
  let ap := set_Data (Some (AddRows ext dt 1)) ap in
  left ← InputStepsLeft ap;
  if left <? 1 then
    (* no steps worth of input sound available -- load a new sound *)
    Some (ap, false)
  else
    let input := Input ap in
    let startPos := InputPos ap in
    (* full amount to wrap *)
    let border := GoInt.mul 2 (Input.BorderSteps input) in
    if InputPos ap =? 0 then
      (* just starting out -- fill whole buffer.. *)
      let ap :=
        set_TrialPos (InputPos ap)
          (GoInt.add (GoInt.add (InputPos ap) (Input.TrialSamples input))
             (GoInt.mul (GoInt.mul 2 border) (Input.StepSamples input))) ap in
      ap ← ProcessTrial_channels (Z.to_nat (Input.Channels input)) false startPos
             border 0 ap;
      Some (ap, true)
    else
      let start :=
        GoInt.sub (InputPos ap)
          (GoInt.mul (Input.StepSamples input) (Input.BorderSteps input)) in
      let ap := set_TrialPos start (GoInt.add start (Input.TrialSamples input)) ap in
      ap ← ProcessTrial_channels (Z.to_nat (Input.Channels input)) true startPos
             border 0 ap;
      Some (ap, true).

End Driver.

End AuditoryProc.

(** * Specification-level definitions and example states *)

(** A stand-in for the math library on paths that never call it. *)
Definition math32_id : Math32 :=
  mkMath32 (fun x => x) (fun x => x) (fun x => x) (fun x _ => x).

Module etensorSpec.
Import etensor.

(** The row-major position of [index] in a tensor of shape [shape], as a
    plain integer. *)
Fixpoint flat (index shape : list Z) : Z :=
  match index, shape with
  | i :: index, _ :: shape => i * foldr Z.mul 1 shape + flat index shape
  | _, _ => 0
  end.

(** Every component of the index is inside its axis. *)
Definition in_bounds (index shape : list Z) : Prop :=
  Forall2 (fun i d => 0 <= i < d) index shape.

(** A tensor whose values fill its shape. *)
Definition filled {A} (tsr : Tensor A) : Prop :=
  Slice.len (Values tsr) = foldr Z.mul 1 (Shp tsr) /\
  foldr Z.mul 1 (Shp tsr) <= GoInt.max_int.

Definition is_int32 (z : Z) : Prop := - 2 ^ 31 <= z < 2 ^ 31.

Definition small (z : Z) : Prop := - 2 ^ 32 <= z <= 2 ^ 32.

Definition is_finite (x : F32.t) : bool :=
  match x with
  | S754_zero _ | S754_finite _ _ _ => true
  | _ => false
  end.

End etensorSpec.

Module trmSpec.
Import trm.

(** The state [Filter] leaves behind: the input stored at the old pointer,
    the pointer stepped back by one. *)
Definition Filter_post (ff : FirFilter) (input : F32.t) : FirFilter :=
  mkFirFilter (Decrement (Ptr ff) (NTaps ff)) (NTaps ff)
    (<[Z.to_nat (Ptr ff) := input]> (Data ff)) (Coef ff).

Definition Filter_example : FirFilter :=
  mkFirFilter 1 3 [F32.zero; F32.zero; F32.zero] [F32.one; F32.one; F32.one].

(** A filter holding coefficients of an earlier design. *)
Definition stale_filter : FirFilter :=
  mkFirFilter 2 3 [F32.one; F32.one; F32.one]
    [F32.of_int 7; F32.of_int 8; F32.of_int 9].

(** A filter in working order: the data buffer has one cell per tap, the
    pointer is inside it and there is a coefficient for every tap. *)
Definition well_formed (ff : FirFilter) : Prop :=
  GoInt.in_range (NTaps ff) /\ 1 <= NTaps ff /\
  Slice.len (Data ff) = NTaps ff /\
  0 <= Ptr ff <= NTaps ff - 1 /\
  NTaps ff <= Slice.len (Coef ff).

(** A stream of samples put through [Filter] one after the other, each
    with its own [needOutput]; the outputs are dropped. *)
Fixpoint Filter_run (ff : FirFilter) (inputs : list (F32.t * bool))
  : option FirFilter :=
  match inputs with
  | [] => Some ff
  | (x, needOutput) :: rest =>
      '(ff, _) ← Filter ff x needOutput;
      Filter_run ff rest
  end.

Definition Filter_run_example : FirFilter :=
  default Filter_example
    (Filter_run Filter_example
       [(F32.of_int 5, true); (F32.of_int 6, false); (F32.of_int 7, true)]).

(** A filter with room for every coefficient, and its design for a
    cut-off at a quarter of the sampling rate. *)
Definition roomy_filter : FirFilter :=
  mkFirFilter 3 7 (replicate 7 F32.one) (replicate 201 F32.one).

Definition roomy_filter_designed : FirFilter :=
  default roomy_filter
    (Init math32_id roomy_filter (F32.of_bits 1 (-2)) (F32.of_bits 1 (-3))
       (F32.of_bits 1 (-10))).

(** [c] is at or above the cutoff in magnitude, as [Trim] compares them. *)
Definition above_cutoff (cutoff c : F32.t) : bool :=
  F32.leb (F32.abs cutoff) (F32.abs c).

(** A filter whose coefficients fall off: 9, 8, 7, 1. *)
Definition tapering_filter : FirFilter :=
  mkFirFilter 0 4 (replicate 4 F32.zero)
    [F32.of_int 9; F32.of_int 8; F32.of_int 7; F32.of_int 1].

End trmSpec.

Module F32Spec.

(** A value carrying the sign [s]: a zero, a finite number or an infinity. *)
Definition signed (s : bool) (x : F32.t) : Prop :=
  x = S754_zero s \/ (exists m e, x = S754_finite s m e) \/ x = S754_infinity s.




End F32Spec.

Module MelSpec.
Import etensor.

(** The integer quotient one slope step takes at [bin]. *)
Definition slope_quot (rising : bool) (edge divisor bin : Z) : Z :=
  Z.quot (if rising then bin - edge else edge - bin) divisor.

(** Filter [f] of the scale-point table spans the bins [mn], [pk], [mx]. *)
Definition filter_bins (ptsBin : Int32) (f mn pk mx : Z) : Prop :=
  Value1D ptsBin f = Some mn /\
  Value1D ptsBin (f + 1) = Some pk /\
  Value1D ptsBin (f + 2) = Some mx.

(** A table whose [n] filters all rise over at least one bin and fit a row
    of [maxBins] weights; the falling side may be empty. *)
Definition rising_table (ptsBin : Int32) (n maxBins : Z) : Prop :=
  forall f, 0 <= f < n ->
    exists mn pk mx, filter_bins ptsBin f mn pk mx /\
      etensorSpec.is_int32 mn /\ etensorSpec.is_int32 mx /\
      mn < pk <= mx /\ mx - mn < maxBins.

Definition zeros (shape : list Z) : Float32 :=
  mkTensor shape (replicate (Z.to_nat (foldr Z.mul 1 shape)) F32.zero).





(** Example tables and states. *)

(** Scale points 0, 2, 4: one filter rising over two bins. *)
Definition table_0_2_4 : Int32 := mkTensor [3] [0; 2; 4].

(** Scale points 0, 1, 1: one filter whose falling divisor is zero. *)
Definition table_0_1_1 : Int32 := mkTensor [3] [0; 1; 1].

(** A bank of one filter over the bins 0 and 1 with the default log and
    renormalization parameters, and room for one step of one channel. *)
Definition mel_one_filter : Mel.t :=
  Mel.mk (zeros [3]) (zeros [3]) (mkTensor [3] [0; 1; 2])
    (mkTensor [1; 3] [F32.zero; F32.one; F32.zero]) 3 3
    (MelFBank.mk true 1 (F32.of_int 120) (F32.of_int 10000) F32.zero
       (F32.of_int (-10)) F32.zero F32.zero
       (RenormSpec.Initialize (RenormSpec.mk false F32.zero F32.zero F32.zero)))
    (zeros [1]) (zeros [1; 1; 1]) 0 0 (MelCepstrumSpec.mk false 13)
    (zeros [1]) (zeros [1; 1; 1]).

Definition power_2_3 : Float32 := mkTensor [2] [F32.of_int 2; F32.of_int 3].


End MelSpec.

Module AuditoryProcSpec.
Import etensor AuditoryProc.

Definition no_gabor : Gabor.t := Gabor.mk false 0 0 0 0 F32.zero 0 0 0.

Definition no_dft : Dft.t := Dft.mk false empty empty empty empty empty.

Definition no_mel : Mel.t :=
  Mel.mk empty empty empty empty 0 0
    (MelFBank.mk false 0 F32.zero F32.zero F32.zero F32.zero F32.zero F32.zero
       (RenormSpec.mk false F32.zero F32.zero F32.zero))
    empty empty 0 0 (MelCepstrumSpec.mk false 0) empty empty.

(** An analyzer at the end of a sound of 80 samples (one step at 16 kHz)
    whose mel bank was never laid out: [MelNFiltersEff] is 0, not
    [NFilters + 2]. *)
Definition exhausted_uninitialized : AuditoryProc.t :=
  AuditoryProc.mk no_mel no_dft (Some (mkTable 0 []))
    (Input.Initialize (Input.mk F32.zero F32.zero F32.zero 0 0 0 0 0 0 0 0 0))
    no_gabor no_gabor no_gabor empty empty empty false
    80 0 0 (MelSpec.zeros [80]) empty false
    empty empty empty empty empty empty.

(** One gabor kernel of one tap, spaced one step apart, whose output
    tensors were shaped for a spacing of two steps: one time slot
    ([ShapeX = 1]) for a trial of two steps. *)
Definition gabor_respaced : Gabor.t := Gabor.mk true 1 1 1 1 F32.one 1 1 2.

(** Three mel filters, two steps and two channels of mel output, all ones. *)
Definition mel_ones : Mel.t :=
  Mel.mk empty empty empty empty 0 5
    (MelFBank.mk true 3 F32.zero F32.zero F32.zero F32.zero F32.zero F32.zero
       (RenormSpec.mk false F32.zero F32.zero F32.zero))
    (MelSpec.zeros [3]) (mkTensor [3; 2; 2] (replicate 12 F32.one))
    0 0 (MelCepstrumSpec.mk false 0) empty empty.

Definition five : F32.t := F32.of_int 5.

(** Output tensors of shape [2, 1, 2, 2, 1], every cell holding 5. *)
Definition fives : Float32 := mkTensor [2; 1; 2; 2; 1] (replicate 8 five).

Definition ap_respaced : AuditoryProc.t :=
  AuditoryProc.mk mel_ones no_dft None
    (Input.mk F32.zero F32.zero F32.zero 0 16000 2 0 2 1 2 2 2)
    gabor_respaced no_gabor no_gabor (mkTensor [1; 1; 1] [F32.one]) empty empty false
    0 0 0 empty empty false
    fives fives empty empty empty empty.


(** A bank of one filter in the middle of a sound: three steps of one
    channel holding 1, 2, 3, of which one step on each side is border; the
    window is two samples, the step one sample, the sound ten samples and
    the next step starts at sample 2. *)
Definition mel_running : Mel.t :=
  Mel.mk (MelSpec.zeros [3]) (MelSpec.zeros [3]) (mkTensor [3] [0; 1; 2])
    (mkTensor [1; 3] [F32.zero; F32.one; F32.zero]) 3 3
    (Mel.MelFBank MelSpec.mel_one_filter)
    (MelSpec.zeros [1])
    (mkTensor [1; 3; 1] [F32.of_int 1; F32.of_int 2; F32.of_int 3]) 2 2
    (MelCepstrumSpec.mk false 13) (MelSpec.zeros [1]) (MelSpec.zeros [1; 3; 1]).

Definition running : AuditoryProc.t :=
  AuditoryProc.mk mel_running
    (Dft.mk false empty MelSpec.power_2_3 empty empty empty)
    (Some (mkTable 0 []))
    (Input.mk F32.zero F32.zero F32.zero 1 16000 1 0 2 1 1 1 3)
    no_gabor no_gabor no_gabor empty empty empty false
    2 0 0 (MelSpec.zeros [10]) (MelSpec.zeros [2]) false
    empty empty empty empty empty empty.

(** Collaborators that do nothing, for the paths that never reach them. *)
Definition ext_idle : Ext :=
  mkExt math32_id (mkFourier (fun _ => None) (fun x => x))
    (fun dft _ _ _ _ => Some dft) (fun g => g) (fun g _ _ => g)
    (fun _ filters => Some filters) (fun _ out _ => Some out)
    (fun dt n => mkTable (Rows dt + n) (Cols dt)) (fun _ dt _ _ => dt).



Definition running_next : AuditoryProc.t :=
  default running (fst <$> ProcessTrial ext_idle running).

Definition mel_running_copied : Mel.t :=
  default mel_running (Mel.CopyStepFromStep mel_running 0 2 0).

Definition mel_running_filtered : Mel.t :=
  default mel_running
    (Mel.FilterWindow math32_id (fourier ext_idle) mel_running 0 2
       (MelSpec.zeros [2]) MelSpec.power_2_3 false).



(** The empty bank after [Mel.Initialize] for 201 dft outputs of a window
    of 400 samples at 16 kHz. *)
Definition mel_initialized : Mel.t :=
  default no_mel (Mel.Initialize math32_id no_mel 201 400 16000).

(** The window [SoundToWindow] leaves for the position [inPos]: the
    samples of the sound from [inPos] on, as many as there are and the
    window takes, then zeros up to the window size. *)
Definition padded_window (ap : AuditoryProc.t) (inPos : Z) : list F32.t :=
  let sound := Values (SoundFull ap) in
  let n := Input.WinSamples (Input ap) in
  let c := Z.max 0 (Z.min (Slice.len sound - inPos) n) in
  take (Z.to_nat c) (drop (Z.to_nat inPos) sound)
    ++ replicate (Z.to_nat (n - c)) F32.zero.

(** [running] with every output tensor emptied, and after [InitOutMatrix]. *)
Definition running_unshaped : AuditoryProc.t :=
  set_WindowIn empty (set_Mel (Mel.set_MelFBankOut empty empty mel_running) running).

Definition running_shaped : AuditoryProc.t :=
  default running_unshaped (InitOutMatrix running_unshaped).

End AuditoryProcSpec.

(** * Properties *)

(** ** Tactics *)

Ltac head_scrutinee t :=
  lazymatch t with
  | mbind _ ?y => head_scrutinee y
  | (if ?b then _ else _) => b
  | (let '(_, _) := ?p in _) => p
  | _ => t
  end.

(** Runs a chain of binds that ended in [Some]: every scrutinee on the way
    is destructed, its equation kept, the failing branches closed. *)
Ltac run_binds H :=
  repeat (cbn [mbind option_bind] in H;
          lazymatch type of H with
          | ?l = Some _ =>
              let x := head_scrutinee l in
              lazymatch x with
              | Some _ => fail
              | _ => destruct x eqn:?
              end
          end;
          cbn [mbind option_bind] in H; try discriminate).

(** ** Integers and slices *)

Module GoIntFacts.
Import GoInt.

Lemma wrap_id z : in_range z -> wrap z = z.
Proof.
  unfold in_range, wrap, min_int, max_int. intros H.
  rewrite Z.mod_small; lia.
Qed.

Lemma wrap_in_range z : in_range (wrap z).
Proof.
  unfold in_range, wrap, min_int, max_int.
  pose proof (Z.mod_pos_bound (z + 2 ^ 63) (2 ^ 64)). lia.
Qed.

End GoIntFacts.

Module SliceFacts.
Import Slice.

Section Facts.
Context {A : Type}.
Implicit Types (s : list A) (i j : Z) (v : A).

Lemma get_Some s i v : get s i = Some v -> 0 <= i < len s.
Proof.
  unfold get, len. destruct (Z.ltb_spec i 0); [discriminate|].
  intros H'. apply lookup_lt_Some in H'. lia.
Qed.

Lemma get_in_range s i : 0 <= i < len s -> is_Some (get s i).
Proof.
  unfold get, len. intros H. destruct (Z.ltb_spec i 0); [lia|].
  apply lookup_lt_is_Some. lia.
Qed.

Lemma set_Some s i v s' :
  set s i v = Some s' -> 0 <= i < len s /\ s' = <[Z.to_nat i := v]> s.
Proof.
  unfold set, len.
  destruct (Z.leb_spec 0 i), (Z.ltb_spec i (Z.of_nat (length s)));
  simpl; intros H'; inversion H'; subst; split; (lia || reflexivity).
Qed.

Lemma set_in_range s i v :
  0 <= i < len s -> set s i v = Some (<[Z.to_nat i := v]> s).
Proof.
  unfold set, len. intros H.
  destruct (Z.leb_spec 0 i), (Z.ltb_spec i (Z.of_nat (length s)));
  simpl; (lia || reflexivity).
Qed.

Lemma len_set s i v s' : set s i v = Some s' -> len s' = len s.
Proof.
  intros H. apply set_Some in H as [_ ->]. unfold len.
  now rewrite length_insert.
Qed.

Lemma get_set_eq s i v s' : set s i v = Some s' -> get s' i = Some v.
Proof.
  intros H. apply set_Some in H as [Hi ->]. unfold get, len in *.
  destruct (Z.ltb_spec i 0); [lia|].
  apply list_lookup_insert_eq. lia.
Qed.

Lemma get_set_ne s i j v s' :
  set s i v = Some s' -> i <> j -> get s' j = get s j.
Proof.
  intros H Hne. apply set_Some in H as [Hi ->]. unfold get.
  destruct (Z.ltb_spec j 0); [reflexivity|].
  apply list_lookup_insert_ne. lia.
Qed.

End Facts.

End SliceFacts.

(** ** Tensors: the flat index of an index inside the shape *)

Module etensorFacts.
Import GoInt GoIntFacts etensor etensorSpec.

Lemma in_bounds_prod_pos index shape :
  in_bounds index shape -> 1 <= foldr Z.mul 1 shape.
Proof.
  induction 1 as [|i d index shape Hi _ IH]; simpl; [lia|nia].
Qed.

Lemma flat_bounds index shape :
  in_bounds index shape -> 0 <= flat index shape < foldr Z.mul 1 shape.
Proof.
  induction 1 as [|i d index shape Hi Hrest IH]; simpl; [lia|].
  pose proof (in_bounds_prod_pos _ _ Hrest). nia.
Qed.

Lemma flat_inj index index' shape :
  in_bounds index shape -> in_bounds index' shape ->
  flat index shape = flat index' shape -> index = index'.
Proof.
  intros H. revert index'.
  induction H as [|i d index shape Hi Hrest IH]; intros index' H' Heq.
  - now inversion H'.
  - inversion H' as [|i' d' index'' shape' Hi' Hrest' E1 E2]; subst.
    simpl in Heq.
    pose proof (flat_bounds _ _ Hrest). pose proof (flat_bounds _ _ Hrest').
    assert (i = i') by nia. subst i'.
    f_equal. apply IH; [assumption|lia].
Qed.

Lemma shape_len_prod index shape :
  in_bounds index shape -> foldr Z.mul 1 shape <= max_int ->
  shape_len shape = foldr Z.mul 1 shape.
Proof.
  induction 1 as [|i d index shape Hi Hrest IH]; simpl; intros Hmax; [reflexivity|].
  pose proof (in_bounds_prod_pos _ _ Hrest).
  unfold shape_len in *. simpl. rewrite IH by nia.
  apply wrap_id. unfold in_range, min_int, max_int in *. nia.
Qed.

Lemma Offset_sum_flat index shape :
  in_bounds index shape -> foldr Z.mul 1 shape <= max_int ->
  Offset_sum index (RowMajorStrides shape) = Some (flat index shape).
Proof.
  induction 1 as [|i d index shape Hi Hrest IH]; simpl; intros Hmax; [reflexivity|].
  pose proof (in_bounds_prod_pos _ _ Hrest).
  pose proof (flat_bounds _ _ Hrest).
  rewrite IH by nia. simpl.
  rewrite (shape_len_prod _ _ Hrest) by nia.
  unfold add, mul. f_equal.
  rewrite (wrap_id (i * _)) by (unfold in_range, min_int, max_int in *; nia).
  apply wrap_id. unfold in_range, min_int, max_int in *. nia.
Qed.

Section Access.
Context {A : Type}.
Implicit Types (tsr : Tensor A) (index : list Z) (v : A).

Lemma Offset_in_bounds tsr index :
  filled tsr -> in_bounds index (Shp tsr) ->
  Offset tsr index = Some (flat index (Shp tsr)).
Proof. intros [_ Hmax] Hin. now apply Offset_sum_flat. Qed.

Lemma SetAt_in_bounds tsr index v :
  filled tsr -> in_bounds index (Shp tsr) ->
  exists tsr', SetAt tsr index v = Some tsr' /\
    Shp tsr' = Shp tsr /\ filled tsr' /\
    Value tsr' index = Some v /\
    forall index', in_bounds index' (Shp tsr) -> index' <> index ->
      Value tsr' index' = Value tsr index'.
Proof.
  intros Hf Hin. pose proof Hf as [Hlen Hmax].
  pose proof (flat_bounds _ _ Hin) as Hb.
  unfold SetAt. rewrite (Offset_in_bounds _ _ Hf Hin). simpl.
  unfold Set1D. rewrite SliceFacts.set_in_range by lia. simpl.
  eexists. split; [reflexivity|]. split; [reflexivity|].
  assert (Hf' : filled (set_Values (<[Z.to_nat (flat index (Shp tsr)) := v]> (Values tsr)) tsr)).
  { unfold filled, Slice.len in *. simpl. now rewrite length_insert. }
  split; [exact Hf'|]. split.
  - unfold Value. rewrite (Offset_in_bounds _ _ Hf' Hin). simpl.
    unfold Value1D, Slice.get. simpl.
    destruct (Z.ltb_spec (flat index (Shp tsr)) 0); [lia|].
    apply list_lookup_insert_eq. unfold Slice.len in Hlen. lia.
  - intros index' Hin' Hne. unfold Value.
    rewrite (Offset_in_bounds _ _ Hf') by exact Hin'.
    rewrite (Offset_in_bounds _ _ Hf Hin'). simpl.
    unfold Value1D, Slice.get. simpl.
    pose proof (flat_bounds _ _ Hin') as Hb'.
    destruct (Z.ltb_spec (flat index' (Shp tsr)) 0); [lia|].
    apply list_lookup_insert_ne. intros E. apply Hne.
    apply (flat_inj _ _ (Shp tsr)); auto. lia.
Qed.

Lemma Value_in_bounds tsr index :
  filled tsr -> in_bounds index (Shp tsr) -> is_Some (Value tsr index).
Proof.
  intros Hf Hin. pose proof Hf as [Hlen Hmax].
  pose proof (flat_bounds _ _ Hin) as Hb.
  unfold Value. rewrite (Offset_in_bounds _ _ Hf Hin). simpl.
  apply SliceFacts.get_in_range. lia.
Qed.

End Access.

End etensorFacts.

(** ** trm: the circular FIR buffer *)

Module trmFacts.
Import GoInt GoIntFacts trm.

Lemma Increment_spec ptr modulus :
  in_range modulus -> 0 <= ptr < modulus ->
  Increment ptr modulus = (ptr + 1) mod modulus.
Proof.
  intros Hm Hp. unfold Increment, add.
  rewrite wrap_id by (unfold in_range, min_int, max_int in *; lia).
  destruct (Z.leb_spec modulus (ptr + 1)).
  - replace (ptr + 1) with modulus by lia. now rewrite Z.mod_same by lia.
  - now rewrite Z.mod_small by lia.
Qed.

Lemma Decrement_spec ptr modulus :
  in_range modulus -> 0 <= ptr < modulus ->
  Decrement ptr modulus = (ptr - 1) mod modulus.
Proof.
  intros Hm Hp. unfold Decrement, sub.
  rewrite !wrap_id by (unfold in_range, min_int, max_int in *; lia).
  destruct (Z.ltb_spec (ptr - 1) 0).
  - replace (ptr - 1) with (-1) by lia.
    replace (-1) with (modulus - 1 + (-1) * modulus) by lia.
    rewrite Z.mod_add, Z.mod_small; lia.
  - now rewrite Z.mod_small by lia.
Qed.

(** C9: on a pointer inside [0 .. modulus-1], Increment and Decrement stay
    inside that range and undo each other. *)
Theorem Increment_Decrement_inverse (ptr modulus : Z) :
  in_range modulus -> 1 <= modulus -> 0 <= ptr <= modulus - 1 ->
  0 <= Increment ptr modulus <= modulus - 1 /\
  0 <= Decrement ptr modulus <= modulus - 1 /\
  Decrement (Increment ptr modulus) modulus = ptr /\
  Increment (Decrement ptr modulus) modulus = ptr.
Proof.
  intros Hm H1 Hp.
  assert (Hi : 0 <= Increment ptr modulus <= modulus - 1).
  { rewrite Increment_spec by (auto; lia).
    pose proof (Z.mod_pos_bound (ptr + 1) modulus). lia. }
  assert (Hd : 0 <= Decrement ptr modulus <= modulus - 1).
  { rewrite Decrement_spec by (auto; lia).
    pose proof (Z.mod_pos_bound (ptr - 1) modulus). lia. }
  repeat split; try lia.
  - rewrite Decrement_spec by (auto; lia).
    rewrite Increment_spec by (auto; lia).
    rewrite Zminus_mod_idemp_l. replace (ptr + 1 - 1) with ptr by lia.
    apply Z.mod_small. lia.
  - rewrite Increment_spec by (auto; lia).
    rewrite Decrement_spec by (auto; lia).
    rewrite Zplus_mod_idemp_l. replace (ptr - 1 + 1) with ptr by lia.
    apply Z.mod_small. lia.
Qed.

Lemma Increment_Decrement_inverse_witness :
  0 <= Increment 4 5 <= 5 - 1 /\
  0 <= Decrement 4 5 <= 5 - 1 /\
  Decrement (Increment 4 5) 5 = 4 /\
  Increment (Decrement 4 5) 5 = 4.
Proof.
  apply (Increment_Decrement_inverse 4 5);
    unfold in_range, min_int, max_int; lia.
Defined.

Lemma Filter_taps_spec (n : nat) :
  forall (i : Z) (ff : FirFilter) (output : F32.t),
    in_range (NTaps ff) -> 0 <= Ptr ff < NTaps ff ->
    Slice.len (Data ff) = NTaps ff ->
    0 <= i -> i + Z.of_nat n <= Slice.len (Coef ff) ->
    exists output',
      Filter_taps n i ff output
      = Some (set_Ptr ((Ptr ff + Z.of_nat n) mod NTaps ff) ff, output').
Proof.
  induction n as [|n IH]; intros i ff output HN Hp Hd Hi Hc.
  - exists output. simpl. rewrite Z.add_0_r, Z.mod_small by lia.
    now destruct ff.
  - destruct (SliceFacts.get_in_range (Data ff) (Ptr ff)) as [d Hgd]; [lia|].
    destruct (SliceFacts.get_in_range (Coef ff) i) as [c Hgc]; [lia|].
    simpl. rewrite Hgd, Hgc. simpl.
    edestruct (IH (i + 1) (set_Ptr (Increment (Ptr ff) (NTaps ff)) ff))
      as [o Ho]; simpl; try lia; auto.
    { rewrite Increment_spec by auto.
      pose proof (Z.mod_pos_bound (Ptr ff + 1) (NTaps ff)). lia. }
    exists o. rewrite Ho. unfold set_Ptr. simpl. do 3 f_equal.
    rewrite Increment_spec by auto. rewrite Zplus_mod_idemp_l. f_equal. lia.
Qed.

(** C10, with the coefficient buffer as long as the tap count: [Filter]
    leaves the same state for both values of [needOutput] (the input
    written at the old pointer, every other entry of Data as it was, the
    pointer decremented), and returns 0 when no output is asked for. *)
Theorem Filter_state_effect (ff : FirFilter) (input : F32.t) :
  in_range (NTaps ff) -> 1 <= NTaps ff ->
  Slice.len (Data ff) = NTaps ff ->
  0 <= Ptr ff <= NTaps ff - 1 ->
  NTaps ff <= Slice.len (Coef ff) ->
  (exists output, Filter ff input true = Some (trmSpec.Filter_post ff input, output)) /\
  Filter ff input false = Some (trmSpec.Filter_post ff input, F32.zero) /\
  Ptr (trmSpec.Filter_post ff input) = Decrement (Ptr ff) (NTaps ff) /\
  Slice.get (Data (trmSpec.Filter_post ff input)) (Ptr ff) = Some input /\
  (forall j, j <> Ptr ff ->
     Slice.get (Data (trmSpec.Filter_post ff input)) j = Slice.get (Data ff) j).
Proof.
  intros HN H1 Hd Hp Hc.
  assert (Hset : Slice.set (Data ff) (Ptr ff) input
                 = Some (<[Z.to_nat (Ptr ff) := input]> (Data ff))).
  { apply SliceFacts.set_in_range. lia. }
  repeat split.
  - unfold Filter. rewrite Hset. simpl.
    edestruct (Filter_taps_spec (Z.to_nat (NTaps ff)) 0
                 (set_Data (<[Z.to_nat (Ptr ff) := input]> (Data ff)) ff) F32.zero)
      as [o Ho]; simpl; try lia; auto.
    { unfold Slice.len in *. rewrite length_insert. lia. }
    exists o. rewrite Ho. simpl. unfold trmSpec.Filter_post. do 2 f_equal.
    rewrite Z2Nat.id by lia.
    rewrite <- (Z.mul_1_l (NTaps ff)) at 1. rewrite Z.mod_add by lia.
    rewrite Z.mod_small by lia. reflexivity.
  - unfold Filter. rewrite Hset. reflexivity.
  - eapply SliceFacts.get_set_eq. exact Hset.
  - intros j Hj. eapply SliceFacts.get_set_ne; [exact Hset|congruence].
Qed.

Lemma Filter_state_effect_witness :
  (exists output,
     Filter trmSpec.Filter_example F32.one true
     = Some (trmSpec.Filter_post trmSpec.Filter_example F32.one, output)) /\
  Filter trmSpec.Filter_example F32.one false
  = Some (trmSpec.Filter_post trmSpec.Filter_example F32.one, F32.zero) /\
  Ptr (trmSpec.Filter_post trmSpec.Filter_example F32.one) = Decrement 1 3 /\
  Slice.get (Data (trmSpec.Filter_post trmSpec.Filter_example F32.one)) 1 = Some F32.one /\
  (forall j, j <> 1 ->
     Slice.get (Data (trmSpec.Filter_post trmSpec.Filter_example F32.one)) j
     = Slice.get (Data trmSpec.Filter_example) j).
Proof.
  apply (Filter_state_effect trmSpec.Filter_example F32.one);
    unfold in_range, min_int, max_int, Slice.len; simpl; lia.
Defined.

(** C10 as stated does not ask for coefficients: with an empty [Coef] the
    output path panics on [ff.Coef[0]] after the write, while the other
    path returns. *)
Lemma Filter_short_Coef :
  exists ff input,
    1 <= NTaps ff /\ Slice.len (Data ff) = NTaps ff /\
    0 <= Ptr ff <= NTaps ff - 1 /\
    Filter ff input true = None /\
    Filter ff input false = Some (trmSpec.Filter_post ff input, F32.zero).
Proof.
  exists (mkFirFilter 0 1 [F32.zero] []), F32.one.
  unfold Slice.len. simpl. repeat split; lia.
Qed.

Lemma Init_refused (m32 : Math32) (ff : FirFilter) (beta gamma cutoff : F32.t) :
  MaximallyFlat m32 ff beta gamma (make (Limit + 1)) = Some (ff, 0, 0) ->
  Init m32 ff beta gamma cutoff = Some (set_Ptr 0 ff).
Proof.
  intros H. unfold Init. rewrite H. simpl. now destruct ff.
Qed.

(** C8 on the code: for a beta outside (0, 0.5), or a gamma outside
    (0, betaMin), [MaximallyFlat] returns 0 like a success and [Init] goes
    on: it returns normally, the coefficients it was given untouched and
    the pointer reset. *)
Theorem Init_out_of_range_proceeds (m32 : Math32) (ff : FirFilter)
  (beta gamma cutoff : F32.t) :
  beta_out_of_range beta = true \/ gamma_out_of_range beta gamma = true ->
  MaximallyFlat m32 ff beta gamma (make (Limit + 1)) = Some (ff, 0, 0) /\
  Init m32 ff beta gamma cutoff = Some (set_Ptr 0 ff) /\
  Coef (set_Ptr 0 ff) = Coef ff.
Proof.
  intros H.
  assert (HM : MaximallyFlat m32 ff beta gamma (make (Limit + 1)) = Some (ff, 0, 0)).
  { unfold MaximallyFlat. destruct (beta_out_of_range beta); [reflexivity|].
    destruct H as [H|H]; [discriminate|]. now rewrite H. }
  split; [exact HM|]. split; [now apply Init_refused|reflexivity].
Qed.

Lemma Init_out_of_range_proceeds_witness :
  MaximallyFlat math32_id trmSpec.stale_filter trm.half (F32.of_bits 1 (-2))
    (make (Limit + 1)) = Some (trmSpec.stale_filter, 0, 0) /\
  Init math32_id trmSpec.stale_filter trm.half (F32.of_bits 1 (-2)) F32.zero
  = Some (set_Ptr 0 trmSpec.stale_filter) /\
  Coef (set_Ptr 0 trmSpec.stale_filter) = Coef trmSpec.stale_filter.
Proof.
  apply (Init_out_of_range_proceeds math32_id trmSpec.stale_filter trm.half
           (F32.of_bits 1 (-2)) F32.zero).
  left. vm_compute. reflexivity.
Defined.

Import trmSpec.

Lemma Filter_well_formed (ff : FirFilter) (x : F32.t) (needOutput : bool) :
  well_formed ff ->
  exists output, Filter ff x needOutput = Some (Filter_post ff x, output).
Proof.
  intros (HN & H1 & Hd & Hp & Hc).
  assert (Hset : Slice.set (Data ff) (Ptr ff) x
                 = Some (<[Z.to_nat (Ptr ff) := x]> (Data ff))).
  { apply SliceFacts.set_in_range. lia. }
  destruct needOutput.
  - unfold Filter. rewrite Hset. simpl.
    edestruct (Filter_taps_spec (Z.to_nat (NTaps ff)) 0
                 (set_Data (<[Z.to_nat (Ptr ff) := x]> (Data ff)) ff) F32.zero)
      as [o Ho]; simpl; try lia; auto.
    { unfold Slice.len in *. rewrite length_insert. lia. }
    exists o. rewrite Ho. simpl. unfold Filter_post. do 2 f_equal.
    rewrite Z2Nat.id by lia.
    rewrite <- (Z.mul_1_l (NTaps ff)) at 1. rewrite Z.mod_add by lia.
    rewrite Z.mod_small by lia. reflexivity.
  - exists F32.zero. unfold Filter. rewrite Hset. reflexivity.
Qed.

Lemma Filter_post_well_formed (ff : FirFilter) (x : F32.t) :
  well_formed ff ->
  well_formed (Filter_post ff x) /\
  Ptr (Filter_post ff x) = (Ptr ff - 1) mod NTaps ff.
Proof.
  intros (HN & H1 & Hd & Hp & Hc).
  assert (E : Decrement (Ptr ff) (NTaps ff) = (Ptr ff - 1) mod NTaps ff)
    by (apply Decrement_spec; [exact HN|lia]).
  pose proof (Z.mod_pos_bound (Ptr ff - 1) (NTaps ff) ltac:(lia)).
  unfold well_formed, Filter_post. cbn [Ptr NTaps Data Coef]. rewrite E.
  unfold Slice.len in *. rewrite length_insert.
  split; [|reflexivity]. split; [exact HN|]. repeat split; lia.
Qed.

Lemma mod_sub_ne (p d N : Z) :
  0 <= p < N -> 1 <= d <= N - 1 -> (p - d) mod N <> p.
Proof.
  intros Hp Hd E.
  destruct (Z_lt_le_dec (p - d) 0).
  - replace (p - d) with (p - d + N + (-1) * N) in E by lia.
    rewrite Z.mod_add, Z.mod_small in E; lia.
  - rewrite Z.mod_small in E; lia.
Qed.

(** A run of Filter over a stream keeps the filter in working order and
    its tap count and coefficients as they were; the pointer has stepped
    back once per sample (modulo the tap count); each of the last [NTaps]
    samples sits in the data buffer as many cells before the old pointer
    as samples came before it, and the cells no sample reached hold what
    they held. *)
Theorem Filter_run_holds_inputs (inputs : list (F32.t * bool)) :
  forall ff : FirFilter,
    well_formed ff ->
    exists ff',
      Filter_run ff inputs = Some ff' /\ well_formed ff' /\
      NTaps ff' = NTaps ff /\ Coef ff' = Coef ff /\
      Ptr ff' = (Ptr ff - Z.of_nat (length inputs)) mod NTaps ff /\
      (forall (j : nat) x b, inputs !! j = Some (x, b) ->
         Z.of_nat (length inputs) - Z.of_nat j <= NTaps ff ->
         Slice.get (Data ff') ((Ptr ff - Z.of_nat j) mod NTaps ff) = Some x) /\
      (forall i, (forall j, 0 <= j < Z.of_nat (length inputs) ->
                    i <> (Ptr ff - j) mod NTaps ff) ->
         Slice.get (Data ff') i = Slice.get (Data ff) i).
Proof.
  induction inputs as [|[x b] rest IH]; intros ff Hwf.
  - exists ff. cbn [Filter_run length]. destruct Hwf as (HN & H1 & Hd & Hp & Hc).
    split; [reflexivity|]. split; [split; [exact HN|repeat split; lia]|].
    split; [reflexivity|]. split; [reflexivity|].
    split; [rewrite Z.sub_0_r, Z.mod_small; lia|].
    split; [intros j x b Hj; discriminate|reflexivity].
  - destruct (Filter_well_formed ff x b Hwf) as [o Ho].
    destruct (Filter_post_well_formed ff x Hwf) as [Hwf1 Hp1].
    destruct (IH _ Hwf1) as (ff' & Hrun & Hwf' & HN' & HC' & HP' & Hv' & Hfr').
    pose proof Hwf as (HN & H1 & Hd & Hp & Hc).
    change (NTaps (Filter_post ff x)) with (NTaps ff) in *.
    change (Coef (Filter_post ff x)) with (Coef ff) in *.
    rewrite Hp1 in HP', Hv', Hfr'.
    assert (Hshift : forall j, ((Ptr ff - 1) mod NTaps ff - j) mod NTaps ff
                               = (Ptr ff - (1 + j)) mod NTaps ff).
    { intros j. rewrite Zminus_mod_idemp_l. f_equal. lia. }
    assert (Hset : Slice.set (Data ff) (Ptr ff) x = Some (Data (Filter_post ff x))).
    { apply SliceFacts.set_in_range. lia. }
    exists ff'. cbn [Filter_run length]. rewrite Ho. cbn [mbind option_bind].
    split; [exact Hrun|]. split; [exact Hwf'|]. split; [exact HN'|].
    split; [exact HC'|]. split; [|split].
    + rewrite HP', Hshift. f_equal. lia.
    + intros [|j] y c Hj Hlen.
      * cbn in Hj. injection Hj as -> ->.
        rewrite Z.sub_0_r, Z.mod_small by lia.
        rewrite Hfr'.
        -- eapply SliceFacts.get_set_eq. exact Hset.
        -- intros j0 Hj0. rewrite Hshift. intros E. symmetry in E.
           revert E. apply mod_sub_ne; lia.
      * cbn in Hj. specialize (Hv' j y c Hj ltac:(lia)).
        rewrite Hshift in Hv'. rewrite <- Hv'. do 2 f_equal. lia.
    + intros i Hi. rewrite Hfr'.
      * eapply SliceFacts.get_set_ne; [exact Hset|].
        specialize (Hi 0 ltac:(lia)). rewrite Z.sub_0_r, Z.mod_small in Hi by lia.
        congruence.
      * intros j0 Hj0. rewrite Hshift. apply Hi. lia.
Qed.

Lemma Filter_run_holds_inputs_witness :
  exists ff',
    Filter_run Filter_example
      [(F32.of_int 5, true); (F32.of_int 6, false); (F32.of_int 7, true)] = Some ff' /\
    well_formed ff' /\
    NTaps ff' = NTaps Filter_example /\ Coef ff' = Coef Filter_example /\
    Ptr ff' = (Ptr Filter_example - Z.of_nat 3) mod NTaps Filter_example /\
    (forall (j : nat) x b,
       [(F32.of_int 5, true); (F32.of_int 6, false); (F32.of_int 7, true)] !! j
       = Some (x, b) ->
       Z.of_nat 3 - Z.of_nat j <= NTaps Filter_example ->
       Slice.get (Data ff') ((Ptr Filter_example - Z.of_nat j) mod NTaps Filter_example)
       = Some x) /\
    (forall i, (forall j, 0 <= j < Z.of_nat 3 ->
                  i <> (Ptr Filter_example - j) mod NTaps Filter_example) ->
       Slice.get (Data ff') i = Slice.get (Data Filter_example) i).
Proof.
  apply (Filter_run_holds_inputs
           [(F32.of_int 5, true); (F32.of_int 6, false); (F32.of_int 7, true)]
           Filter_example).
  unfold well_formed, GoInt.in_range. repeat split; vm_compute; discriminate.
Defined.

Import trmSpec.

Lemma get_make (n p : Z) (v : F32.t) : Slice.get (make n) p = Some v -> v = F32.zero.
Proof.
  unfold Slice.get, make. destruct (p <? 0); [discriminate|].
  intros H. apply lookup_replicate in H as [-> _]. reflexivity.
Qed.

(** The copy loop of [Init] out of a slice of zeros: the [k] cells from
    [i] on are zero afterwards, the others as before. *)
Lemma Init_coefs_zero (n : Z) (k : nat) :
  forall (i pointer increment : Z) (coef coef' : list F32.t),
    Init_coefs k i (make n) coef pointer increment = Some coef' ->
    (forall j, i <= j < i + Z.of_nat k -> Slice.get coef' j = Some F32.zero) /\
    (forall j, ~ (i <= j < i + Z.of_nat k) -> Slice.get coef' j = Slice.get coef j).
Proof.
  induction k as [|k IH]; intros i pointer increment coef coef' H.
  - cbn in H. injection H as <-. split; [intros; lia|reflexivity].
  - cbn [Init_coefs] in H.
    destruct (Slice.get (make n) pointer) as [v|] eqn:Hv; [|discriminate].
    apply get_make in Hv as ->. cbn [mbind option_bind] in H.
    destruct (Slice.set coef i F32.zero) as [coef1|] eqn:Hs; [|discriminate].
    cbn [mbind option_bind] in H.
    assert (IH' : (forall j, i + 1 <= j < i + 1 + Z.of_nat k ->
                     Slice.get coef' j = Some F32.zero) /\
                  (forall j, ~ (i + 1 <= j < i + 1 + Z.of_nat k) ->
                     Slice.get coef' j = Slice.get coef1 j)).
    { destruct (GoInt.add pointer increment <=? 0); eapply IH; exact H. }
    destruct IH' as [Hz Hfr]. split.
    + intros j Hj. destruct (Z.eq_dec j i) as [->|Hne].
      * rewrite Hfr by lia. eapply SliceFacts.get_set_eq. exact Hs.
      * apply Hz. lia.
    + intros j Hj. rewrite Hfr by lia.
      eapply SliceFacts.get_set_ne; [exact Hs|lia].
Qed.

Lemma MaximallyFlat_frame (m32 : Math32) (ff ff1 : FirFilter) (beta gamma : F32.t)
  (coefficients : list F32.t) (np r : Z) :
  MaximallyFlat m32 ff beta gamma coefficients = Some (ff1, np, r) ->
  Ptr ff1 = Ptr ff /\ NTaps ff1 = NTaps ff /\ Data ff1 = Data ff.
Proof.
  unfold MaximallyFlat. intros H.
  destruct (beta_out_of_range beta); [injection H as <- _ _; auto|].
  destruct (gamma_out_of_range beta gamma); [injection H as <- _ _; auto|].
  destruct (160 <? _); [injection H as <- _ _; auto|].
  destruct (RationalApproximation _ _ _ _) as [[nt numerator] np'].
  run_binds H. injection H as <- _ _. auto.
Qed.

(** Init never installs the design: MaximallyFlat computes into ff.Coef,
    and the copy loop then overwrites the first 2n-1 taps (n the trimmed
    count) from the scratch slice no one wrote, so they are all zero; the
    cells beyond hold what MaximallyFlat left.  The pointer is reset; the
    tap count and the data buffer are not written. *)
Theorem Init_zeroes_taps (m32 : Math32) (ff ff' : FirFilter)
  (beta gamma cutoff : F32.t) :
  Init m32 ff beta gamma cutoff = Some ff' ->
  exists ff1 np r n,
    MaximallyFlat m32 ff beta gamma (make (Limit + 1)) = Some (ff1, np, r) /\
    Trim ff1 cutoff np (make (Limit + 1)) = Some n /\
    (forall i, 0 <= i < GoInt.sub (GoInt.mul n 2) 1 ->
       Slice.get (Coef ff') i = Some F32.zero) /\
    (forall i, ~ (0 <= i < GoInt.sub (GoInt.mul n 2) 1) ->
       Slice.get (Coef ff') i = Slice.get (Coef ff1) i) /\
    Ptr ff' = 0 /\ NTaps ff' = NTaps ff /\ Data ff' = Data ff.
Proof.
  unfold Init. intros H.
  destruct (MaximallyFlat m32 ff beta gamma (make (Limit + 1)))
    as [[[ff1 np] r]|] eqn:Hm; [|discriminate].
  cbn [mbind option_bind] in H.
  destruct (Trim ff1 cutoff np (make (Limit + 1))) as [n|] eqn:Ht; [|discriminate].
  cbn [mbind option_bind] in H.
  destruct (Init_coefs _ 0 _ (Coef ff1) n (-1)) as [coef|] eqn:Hc; [|discriminate].
  cbn [mbind option_bind] in H. injection H as <-.
  apply Init_coefs_zero in Hc as [Hz Hfr].
  destruct (MaximallyFlat_frame _ _ _ _ _ _ _ _ Hm) as (_ & HN & HD).
  exists ff1, np, r, n. split; [reflexivity|]. split; [exact Ht|].
  cbn [Coef Ptr NTaps Data set_Ptr set_Coef].
  split; [intros i Hi; apply Hz; lia|].
  split; [intros i Hi; apply Hfr; lia|].
  split; [reflexivity|]. split; assumption.
Qed.

Lemma Init_zeroes_taps_witness :
  exists ff1 np r n,
    MaximallyFlat math32_id roomy_filter (F32.of_bits 1 (-2)) (F32.of_bits 1 (-3))
      (make (Limit + 1)) = Some (ff1, np, r) /\
    Trim ff1 (F32.of_bits 1 (-10)) np (make (Limit + 1)) = Some n /\
    (forall i, 0 <= i < GoInt.sub (GoInt.mul n 2) 1 ->
       Slice.get (Coef roomy_filter_designed) i = Some F32.zero) /\
    (forall i, ~ (0 <= i < GoInt.sub (GoInt.mul n 2) 1) ->
       Slice.get (Coef roomy_filter_designed) i = Slice.get (Coef ff1) i) /\
    Ptr roomy_filter_designed = 0 /\
    NTaps roomy_filter_designed = NTaps roomy_filter /\
    Data roomy_filter_designed = Data roomy_filter.
Proof.
  apply (Init_zeroes_taps math32_id roomy_filter roomy_filter_designed
           (F32.of_bits 1 (-2)) (F32.of_bits 1 (-3)) (F32.of_bits 1 (-10))).
  vm_compute. reflexivity.
Defined.

Import trmSpec.

Lemma Trim_scan_spec (nC : Z) (coef : list F32.t) (cutoff : F32.t) (k : nat) :
  forall (i n : Z),
    Trim_scan k i nC coef cutoff = Some n ->
    (n = nC /\
     forall j, i - Z.of_nat k < j <= i ->
       exists c, Slice.get coef j = Some c /\ above_cutoff cutoff c = false) \/
    (i - Z.of_nat k < n <= i /\
     (exists c, Slice.get coef n = Some c /\ above_cutoff cutoff c = true) /\
     forall j, n < j <= i ->
       exists c, Slice.get coef j = Some c /\ above_cutoff cutoff c = false).
Proof.
  induction k as [|k IH]; intros i n H.
  - cbn in H. injection H as <-. left. split; [reflexivity|]. intros; lia.
  - cbn [Trim_scan] in H.
    destruct (Slice.get coef i) as [ci|] eqn:Hg; [|discriminate].
    cbn [mbind option_bind] in H.
    destruct (F32.leb (F32.abs cutoff) (F32.abs ci)) eqn:Hc.
    + injection H as <-. right. split; [lia|]. split; [eauto|]. intros; lia.
    + apply IH in H as [[-> Hall]|(Hr & Hn & Hall)].
      * left. split; [reflexivity|]. intros j Hj.
        destruct (Z.eq_dec j i) as [->|Hne]; [eauto|]. apply Hall. lia.
      * right. split; [lia|]. split; [exact Hn|]. intros j Hj.
        destruct (Z.eq_dec j i) as [->|Hne]; [eauto|]. apply Hall. lia.
Qed.

(** Trim scans ff.Coef (not the slice it is handed) downwards from
    [nCoefficients]: the count it leaves is the index of the last
    coefficient at or above the cutoff in magnitude, every coefficient
    after it up to [nCoefficients] being below; when none is at or above
    the cutoff the count is left as it was. *)
Theorem Trim_last_above (ff : FirFilter) (cutoff : F32.t) (nCoefficients n : Z)
  (coefficients : list F32.t) :
  Trim ff cutoff nCoefficients coefficients = Some n ->
  (n = nCoefficients /\
   forall j, 1 <= j <= nCoefficients ->
     exists c, Slice.get (Coef ff) j = Some c /\ above_cutoff cutoff c = false) \/
  (1 <= n <= nCoefficients /\
   (exists c, Slice.get (Coef ff) n = Some c /\ above_cutoff cutoff c = true) /\
   forall j, n < j <= nCoefficients ->
     exists c, Slice.get (Coef ff) j = Some c /\ above_cutoff cutoff c = false).
Proof.
  unfold Trim. intros H. apply Trim_scan_spec in H as [[-> Hall]|(Hr & Hn & Hall)].
  - left. split; [reflexivity|]. intros j Hj. apply Hall. lia.
  - right. split; [lia|]. split; [exact Hn|exact Hall].
Qed.

Lemma Trim_last_above_witness :
  (1 = 3 /\
   forall j, 1 <= j <= 3 ->
     exists c, Slice.get (Coef tapering_filter) j = Some c /\
               above_cutoff (F32.of_int 8) c = false) \/
  (1 <= 1 <= 3 /\
   (exists c, Slice.get (Coef tapering_filter) 1 = Some c /\
              above_cutoff (F32.of_int 8) c = true) /\
   forall j, 1 < j <= 3 ->
     exists c, Slice.get (Coef tapering_filter) j = Some c /\
               above_cutoff (F32.of_int 8) c = false).
Proof.
  apply (Trim_last_above tapering_filter (F32.of_int 8) 3 1 []).
  vm_compute. reflexivity.
Defined.

End trmFacts.

(** ** float32: signs under multiplication *)

Module F32Facts.
Import F32Spec.

Lemma shr_1_nonneg r : 0 <= shr_m r -> 0 <= shr_m (shr_1 r).
Proof.
  destruct r as [m r s]. simpl.
  destruct m as [|[p|p|]|[p|p|]]; simpl; lia.
Qed.

Lemma iter_pos_shr_1_nonneg p :
  forall r, 0 <= shr_m r -> 0 <= shr_m (SpecFloat.iter_pos shr_1 p r).
Proof.
  induction p as [p IH|p IH|]; intros r Hr; simpl.
  - apply IH, IH, shr_1_nonneg, Hr.
  - apply IH, IH, Hr.
  - apply shr_1_nonneg, Hr.
Qed.

Lemma shr_fexp_nonneg m e l :
  0 <= m -> 0 <= shr_m (fst (shr_fexp F32.prec F32.emax m e l)).
Proof.
  intros Hm. unfold shr_fexp, shr.
  assert (H0 : 0 <= shr_m (shr_record_of_loc m l)).
  { destruct l as [|[| |]]; exact Hm. }
  destruct (fexp F32.prec F32.emax (Zdigits2 m + e) - e); simpl; auto.
  now apply iter_pos_shr_1_nonneg.
Qed.

Lemma round_nearest_even_nonneg m l : 0 <= m -> 0 <= round_nearest_even m l.
Proof.
  intros Hm. destruct l as [|[| |]]; simpl; try lia.
  destruct (Z.even m); lia.
Qed.

Lemma binary_round_aux_signed s m e :
  signed s (binary_round_aux F32.prec F32.emax s (Z.pos m) e loc_Exact).
Proof.
  unfold binary_round_aux.
  pose proof (shr_fexp_nonneg (Z.pos m) e loc_Exact) as H1.
  destruct (shr_fexp F32.prec F32.emax (Z.pos m) e loc_Exact) as [mrs' e'].
  simpl in H1. specialize (H1 ltac:(lia)).
  pose proof (shr_fexp_nonneg
                (round_nearest_even (shr_m mrs') (loc_of_shr_record mrs')) e' loc_Exact) as H2.
  destruct (shr_fexp F32.prec F32.emax
              (round_nearest_even (shr_m mrs') (loc_of_shr_record mrs')) e' loc_Exact)
    as [mrs'' e''].
  simpl in H2. specialize (H2 (round_nearest_even_nonneg _ _ H1)).
  destruct (shr_m mrs'') as [|p|p]; [left; reflexivity| |lia].
  destruct (e'' <=? F32.emax - F32.prec); [right; left; eauto|right; right; reflexivity].
Qed.







(** *** float32 of small integers *)

Lemma digits2_pos_size (p : positive) : digits2_pos p = Pos.size p.
Proof. induction p as [p IH|p IH|]; simpl; congruence. Qed.

Lemma iter_xO_digits (k p : positive) :
  digits2_pos (Pos.iter xO p k) = (digits2_pos p + k)%positive.
Proof.
  revert p. induction k as [|k IH] using Pos.peano_ind; intros p.
  - simpl. lia.
  - rewrite Pos.iter_succ. simpl. rewrite IH. lia.
Qed.

Lemma iter_xO_value (k p : positive) :
  Z.pos (Pos.iter xO p k) = Z.pos p * 2 ^ Z.pos k.
Proof.
  revert p. induction k as [|k IH] using Pos.peano_ind; intros p.
  - simpl. lia.
  - rewrite Pos.iter_succ, Pos2Z.inj_succ, Z.pow_succ_r by lia.
    rewrite Pos2Z.inj_xO, IH. lia.
Qed.

Lemma iter_xO_compare (k p q : positive) :
  Pos.compare_cont Eq (Pos.iter xO p k) (Pos.iter xO q k) = Pos.compare p q.
Proof.
  induction k as [|k IH] using Pos.peano_ind.
  - reflexivity.
  - rewrite !Pos.iter_succ. simpl. exact IH.
Qed.

(** The mantissa and exponent of the float32 of [p], for [p] of at most 24
    binary digits. *)
Definition small_norm (p : positive) : positive * Z :=
  match Z.pos (digits2_pos p) - 24 with
  | Zneg k => (Pos.iter xO p k, Zneg k)
  | _ => (p, 0)
  end.

Lemma small_norm_digits (p : positive) :
  Z.pos (digits2_pos p) <= 24 ->
  Z.pos (digits2_pos (fst (small_norm p))) = 24 /\
  snd (small_norm p) = Z.pos (digits2_pos p) - 24.
Proof.
  intros H. unfold small_norm.
  destruct (Z.pos (digits2_pos p) - 24) as [|k|k] eqn:E; cbn [fst snd].
  - lia.
  - lia.
  - rewrite iter_xO_digits. lia.
Qed.

Lemma binary_round_small (s : bool) (p : positive) :
  Z.pos (digits2_pos p) <= 24 ->
  binary_round F32.prec F32.emax s p 0
  = S754_finite s (fst (small_norm p)) (snd (small_norm p)).
Proof.
  intros H. destruct (small_norm_digits p H) as [Hd He].
  unfold binary_round.
  assert (Hf : fexp F32.prec F32.emax (Z.pos (digits2_pos p) + 0)
               = Z.pos (digits2_pos p) - 24).
  { unfold fexp, emin, F32.prec, F32.emax. lia. }
  rewrite Hf.
  assert (Hal : shl_align p 0 (Z.pos (digits2_pos p) - 24) = small_norm p).
  { unfold shl_align, small_norm. rewrite Z.sub_0_r.
    destruct (Z.pos (digits2_pos p) - 24) as [|k|k] eqn:E; reflexivity. }
  rewrite Hal. destruct (small_norm p) as [mz ez]. cbn [fst snd] in *.
  unfold binary_round_aux.
  assert (Hs : forall l, shr_fexp F32.prec F32.emax (Z.pos mz) ez l
                         = (shr_record_of_loc (Z.pos mz) l, ez)).
  { intros l. unfold shr_fexp. cbn [Zdigits2].
    replace (fexp F32.prec F32.emax (Z.pos (digits2_pos mz) + ez) - ez) with 0.
    - reflexivity.
    - unfold fexp, emin, F32.prec, F32.emax. lia. }
  rewrite Hs. cbn [shr_record_of_loc shr_m loc_of_shr_record round_nearest_even].
  rewrite Hs. cbn [shr_record_of_loc shr_m].
  destruct (Z.leb_spec ez (F32.emax - F32.prec)) as [_|Hgt]; [reflexivity|].
  unfold F32.emax, F32.prec in Hgt. lia.
Qed.

Lemma small_digits (p : positive) : Z.pos p < 2 ^ 24 -> Z.pos (digits2_pos p) <= 24.
Proof.
  intros H. rewrite digits2_pos_size.
  pose proof (Pos.size_le p) as Hle.
  apply Pos2Z.pos_le_pos in Hle. rewrite Pos2Z.inj_pow in Hle.
  change (Z.pos p~0) with (2 * Z.pos p) in Hle.
  destruct (Z_le_gt_dec (Z.pos (Pos.size p)) 24) as [|Hgt]; [assumption|exfalso].
  assert (H25 : 2 ^ 25 <= 2 ^ Z.pos (Pos.size p)) by (apply Z.pow_le_mono_r; lia).
  set (x := 2 ^ Z.pos (Pos.size p)) in *. clearbody x. lia.
Qed.

Lemma to_int_small_norm (s : bool) (p : positive) :
  Z.pos p < 2 ^ 24 ->
  F32.to_int (S754_finite s (fst (small_norm p)) (snd (small_norm p)))
  = if s then Z.neg p else Z.pos p.
Proof.
  intros H. pose proof (small_digits p H) as Hd.
  unfold F32.to_int, small_norm.
  destruct (Z.pos (digits2_pos p) - 24) as [|k|k] eqn:E; cbn [fst snd].
  - cbn [Z.leb Z.compare]. rewrite Z.mul_1_r.
    destruct s; unfold GoInt.min_int, GoInt.max_int;
      destruct (Z.leb_spec (- 2 ^ 63) (- Z.pos p)), (Z.leb_spec (- Z.pos p) (2 ^ 63 - 1)),
               (Z.leb_spec (- 2 ^ 63) (Z.pos p)), (Z.leb_spec (Z.pos p) (2 ^ 63 - 1));
      cbn [andb]; lia.
  - lia.
  - change (0 <=? Z.neg k) with false. cbn [Z.opp].
    rewrite iter_xO_value, Z.div_mul by lia.
    destruct s; unfold GoInt.min_int, GoInt.max_int;
      destruct (Z.leb_spec (- 2 ^ 63) (- Z.pos p)), (Z.leb_spec (- Z.pos p) (2 ^ 63 - 1)),
               (Z.leb_spec (- 2 ^ 63) (Z.pos p)), (Z.leb_spec (Z.pos p) (2 ^ 63 - 1));
      cbn [andb]; lia.
Qed.

(** [int(float32(z))] is [z] below 2^24 in magnitude. *)
Lemma to_int_of_int (z : Z) : - 2 ^ 24 < z < 2 ^ 24 -> F32.to_int (F32.of_int z) = z.
Proof.
  intros H. unfold F32.of_int, binary_normalize. destruct z as [|p|p].
  - reflexivity.
  - rewrite binary_round_small by (apply small_digits; lia).
    rewrite to_int_small_norm by lia. reflexivity.
  - rewrite binary_round_small by (apply small_digits; lia).
    rewrite to_int_small_norm by lia. reflexivity.
Qed.

Lemma of_int_pos_small (p : positive) :
  Z.pos p < 2 ^ 24 ->
  F32.of_int (Z.pos p) = S754_finite false (fst (small_norm p)) (snd (small_norm p)).
Proof. intros H. apply binary_round_small, small_digits, H. Qed.

Lemma digits_lt (p q : positive) :
  Z.pos (digits2_pos p) < Z.pos (digits2_pos q) -> Z.pos p < Z.pos q.
Proof.
  rewrite (digits2_pos_size p), (digits2_pos_size q). intros H.
  assert (Hm : 2 ^ (Z.pos (Pos.size p) + 1) <= 2 ^ Z.pos (Pos.size q))
    by (apply Z.pow_le_mono_r; lia).
  rewrite Z.pow_add_r, Z.pow_1_r in Hm by lia.
  pose proof (Pos.size_gt p) as Hp. pose proof (Pos.size_le q) as Hq.
  apply Pos2Z.pos_lt_pos in Hp. apply Pos2Z.pos_le_pos in Hq.
  rewrite Pos2Z.inj_pow in Hp, Hq. change (Z.pos q~0) with (2 * Z.pos q) in Hq.
  set (x := 2 ^ Z.pos (Pos.size p)) in *. set (y := 2 ^ Z.pos (Pos.size q)) in *.
  clearbody x y. lia.
Qed.

Lemma ltb_small (p q : positive) :
  Z.pos p < 2 ^ 24 -> Z.pos q < 2 ^ 24 ->
  F32.ltb (F32.of_int (Z.pos p)) (F32.of_int (Z.pos q)) = (Z.pos p <? Z.pos q).
Proof.
  intros Hp Hq. rewrite !of_int_pos_small by assumption.
  destruct (small_norm_digits p (small_digits p Hp)) as [_ Hep].
  destruct (small_norm_digits q (small_digits q Hq)) as [_ Heq].
  unfold F32.ltb, SFltb, SFcompare. rewrite Hep, Heq.
  destruct (Z.compare_spec (Z.pos (digits2_pos p) - 24) (Z.pos (digits2_pos q) - 24))
    as [E|E|E].
  - assert (Ed : digits2_pos p = digits2_pos q) by lia.
    unfold small_norm. rewrite Ed.
    destruct (Z.pos (digits2_pos q) - 24) as [|k|k]; cbn [fst];
      rewrite ?iter_xO_compare; unfold Z.ltb; cbn [Z.compare]; reflexivity.
  - assert (Z.pos p < Z.pos q) by (apply digits_lt; lia).
    symmetry. apply Z.ltb_lt. assumption.
  - assert (Z.pos q < Z.pos p) by (apply digits_lt; lia).
    symmetry. apply Z.ltb_ge. lia.
Qed.

Lemma of_int_neg_signed (p : positive) : signed true (F32.of_int (Z.neg p)).
Proof.
  unfold F32.of_int, binary_normalize, binary_round.
  destruct (shl_align _ _ _) as [mz ez]. apply binary_round_aux_signed.
Qed.

Lemma to_int_signed_true (x : F32.t) : signed true x -> F32.to_int x <= 0.
Proof.
  intros [->|[(m & e & ->)| ->]]; unfold F32.to_int, GoInt.min_int; try lia.
  set (mag := if 0 <=? e then Z.pos m * 2 ^ e else Z.pos m / 2 ^ (- e)).
  assert (0 <= mag).
  { unfold mag. destruct (Z.leb_spec 0 e); [apply Z.mul_nonneg_nonneg; [lia|]|].
    - apply Z.pow_nonneg. lia.
    - apply Z.div_pos; [lia|]. apply Z.pow_pos_nonneg; lia. }
  destruct (_ && _); lia.
Qed.

Lemma Max_pos_zero (m : positive) (e : Z) :
  F32.Max (S754_finite false m e) F32.zero = S754_finite false m e.
Proof. reflexivity. Qed.

Lemma Min_pos_pos (m1 m2 : positive) (e1 e2 : Z) :
  F32.Min (S754_finite false m1 e1) (S754_finite false m2 e2)
  = if F32.ltb (S754_finite false m1 e1) (S754_finite false m2 e2)
    then S754_finite false m1 e1 else S754_finite false m2 e2.
Proof. reflexivity. Qed.

Lemma Min_neg_pos (m1 m2 : positive) (e1 e2 : Z) :
  F32.Min (S754_finite true m1 e1) (S754_finite false m2 e2) = S754_finite true m1 e1.
Proof. reflexivity. Qed.

(** The two conversions of [SoundToWindow] through float32: the count of
    samples to copy is the smaller of what is left in the sound and the
    window size, and not below zero. *)
Lemma samplesCopy_spec (avail win : Z) :
  avail < 2 ^ 24 -> 0 < win < 2 ^ 24 ->
  let c := F32.to_int (F32.Min (F32.of_int avail) (F32.of_int win)) in
  (0 < avail -> c = Z.min avail win) /\ (avail <= 0 -> c <= 0) /\
  F32.to_int (F32.Max (F32.of_int c) F32.zero) = Z.max 0 (Z.min avail win).
Proof.
  intros Ha Hw.
  assert (Hmax : forall z, z < 2 ^ 24 ->
            F32.to_int (F32.Max (F32.of_int z) F32.zero) = Z.max 0 z).
  { intros [|p|p] Hz.
    - reflexivity.
    - rewrite of_int_pos_small by lia. rewrite Max_pos_zero.
      rewrite to_int_small_norm by lia. lia.
    - destruct (of_int_neg_signed p) as [->|[(m & e & ->)| ->]]; reflexivity. }
  destruct win as [|q|q]; try lia.
  destruct avail as [|p|p]; cbv zeta.
  - rewrite (of_int_pos_small q) by lia.
    split; [lia|]. split; [intros _; cbn; lia|]. reflexivity.
  - assert (E : F32.Min (F32.of_int (Z.pos p)) (F32.of_int (Z.pos q))
                = F32.of_int (Z.min (Z.pos p) (Z.pos q))).
    { pose proof (ltb_small p q ltac:(lia) ltac:(lia)) as Hlt.
      rewrite (of_int_pos_small p), (of_int_pos_small q) in * by lia.
      rewrite Min_pos_pos, Hlt.
      destruct (Z.ltb_spec (Z.pos p) (Z.pos q)).
      - rewrite Z.min_l by lia. now rewrite of_int_pos_small by lia.
      - rewrite Z.min_r by lia. now rewrite of_int_pos_small by lia. }
    rewrite E. rewrite to_int_of_int by lia.
    split; [reflexivity|]. split; [lia|]. rewrite Hmax by lia. lia.
  - assert (Hc : F32.to_int (F32.Min (F32.of_int (Z.neg p)) (F32.of_int (Z.pos q))) <= 0).
    { rewrite (of_int_pos_small q) by lia.
      destruct (of_int_neg_signed p) as [->|[(m & e & ->)| ->]].
      - cbn. lia.
      - rewrite Min_neg_pos. apply to_int_signed_true. right. left. eauto.
      - cbn. unfold GoInt.min_int. lia. }
    split; [lia|]. split; [intros _; exact Hc|].
    set (c := F32.to_int _) in *. clearbody c.
    destruct c as [|c|c]; try lia.
    + reflexivity.
    + destruct (of_int_neg_signed c) as [->|[(m & e & ->)| ->]]; reflexivity.
Qed.

End F32Facts.

(** ** audio: the mel filter bank *)

Module MelFacts.
Import GoInt GoIntFacts etensor etensorSpec etensorFacts Mel MelSpec.

Lemma quot_in_range a d :
  d <> 0 -> in_range a -> - max_int <= a -> in_range (Z.quot a d).
Proof.
  intros Hd Ha Ha'.
  assert (Z.abs (Z.quot a d) <= Z.abs a).
  { rewrite <- Z.quot_abs by assumption.
    rewrite Z.quot_div_nonneg by lia.
    apply Z.div_le_upper_bound; [lia|]. nia. }
  unfold in_range, min_int, max_int in *. lia.
Qed.

Lemma in_bounds_2 f c n maxBins :
  in_bounds [f; c] [n; maxBins] <-> 0 <= f < n /\ 0 <= c < maxBins.
Proof.
  unfold in_bounds. split.
  - intros H. inversion H as [|? ? ? ? H1 H2]; subst.
    inversion H2; subst. tauto.
  - intros [H1 H2]. repeat constructor; lia.
Qed.

Lemma InitFilters_slope_spec (rising : bool) (k : nat) :
  forall (f edge divisor bin fi : Z) (filters : Float32) (n maxBins : Z),
    Shp filters = [n; maxBins] -> filled filters ->
    0 <= f < n -> 0 <= fi -> fi + Z.of_nat k <= maxBins ->
    (0 < Z.of_nat k -> 0 < divisor) ->
    small edge -> small bin -> small (bin + Z.of_nat k) ->
    exists w,
      InitFilters_slope rising k f edge divisor bin fi filters
      = Some (bin + Z.of_nat k, fi + Z.of_nat k, w) /\
      Shp w = [n; maxBins] /\ filled w /\
      (forall j, 0 <= j < Z.of_nat k ->
         Value w [f; fi + j]
         = Some (F32.of_int (slope_quot rising edge divisor (bin + j)))) /\
      (forall f' c, in_bounds [f'; c] [n; maxBins] ->
         f' <> f \/ c < fi \/ fi + Z.of_nat k <= c ->
         Value w [f'; c] = Value filters [f'; c]).
Proof.
  induction k as [|k IH];
    intros f edge divisor bin fi filters n maxBins Hs Hf Hfn Hfi Hk Hd He Hb Hbk.
  - exists filters. simpl. rewrite !Z.add_0_r.
    split; [reflexivity|]. split; [exact Hs|]. split; [exact Hf|].
    split; [intros; lia|reflexivity].
  - assert (Hd' : 0 < divisor) by lia.
    cbn [InitFilters_slope].
    assert (Hq : quo (if rising then sub bin edge else sub edge bin) divisor
                 = Some (slope_quot rising edge divisor bin)).
    { unfold quo. destruct (Z.eqb_spec divisor 0); [lia|]. f_equal.
      unfold slope_quot, sub, small in *.
      destruct rising;
        (rewrite (wrap_id (_ - _)) by (unfold in_range, min_int, max_int; lia));
        apply wrap_id, quot_in_range;
        unfold in_range, min_int, max_int; lia. }
    rewrite Hq. simpl.
    destruct (SetAt_in_bounds filters [f; fi]
                (F32.of_int (slope_quot rising edge divisor bin)) Hf)
      as (w1 & Hset & Hs1 & Hf1 & Hv1 & Hfr1).
    { rewrite Hs. apply in_bounds_2. lia. }
    rewrite Hset. simpl.
    destruct (IH f edge divisor (bin + 1) (fi + 1) w1 n maxBins)
      as (w & Hrun & Hsw & Hfw & Hvals & Hframe);
      try (unfold small in *; lia); auto.
    { congruence. }
    exists w. rewrite Hrun.
    split. { do 3 f_equal; lia. }
    split; [exact Hsw|]. split; [exact Hfw|]. split.
    + intros j Hj. destruct (Z.eq_dec j 0) as [->|Hj0].
      * rewrite Z.add_0_r. rewrite Hframe.
        -- rewrite Z.add_0_r in *. exact Hv1.
        -- apply in_bounds_2. lia.
        -- lia.
      * replace (fi + j) with (fi + 1 + (j - 1)) by lia.
        replace (bin + j) with (bin + 1 + (j - 1)) by lia.
        apply Hvals. lia.
    + intros f' c Hin Hout. rewrite Hframe by (auto; lia).
      apply Hfr1; [now rewrite Hs|].
      intros E. inversion E. lia.
Qed.

Lemma InitFilters_filter_spec (ptsBin : Int32) (f : Z) (filters : Float32)
  (n maxBins mn pk mx : Z) :
  Shp filters = [n; maxBins] -> filled filters -> 0 <= f < n ->
  filter_bins ptsBin f mn pk mx ->
  is_int32 mn -> is_int32 mx -> mn < pk <= mx -> mx - mn < maxBins ->
  exists w,
    InitFilters_filter ptsBin f filters = Some w /\
    Shp w = [n; maxBins] /\ filled w /\
    (forall b, mn <= b <= mx ->
       Value w [f; b - mn] = Some (if b =? pk then F32.one else F32.zero)) /\
    (forall f' c, in_bounds [f'; c] [n; maxBins] -> f' <> f ->
       Value w [f'; c] = Value filters [f'; c]).
Proof.
  intros Hs Hf Hfn (Hmn & Hpk & Hmx) Imn Imx Hord Hfit.
  unfold InitFilters_filter. rewrite Hmn, Hpk, Hmx. simpl.
  assert (Epkmin : sub pk mn = pk - mn).
  { apply wrap_id. unfold in_range, min_int, max_int, is_int32 in *. lia. }
  assert (Epkmax : sub mx pk = mx - pk).
  { apply wrap_id. unfold in_range, min_int, max_int, is_int32 in *. lia. }
  rewrite Epkmin, Epkmax.
  destruct (InitFilters_slope_spec true (Z.to_nat (pk - mn + 1)) f mn (pk - mn) mn 0
              filters n maxBins) as (w1 & Hrun1 & Hs1 & Hf1 & Hv1 & Hfr1);
    try (unfold small, is_int32 in *; lia); auto.
  rewrite Hrun1. simpl. rewrite Z2Nat.id by lia.
  replace (mn + (pk - mn + 1)) with (pk + 1) by lia.
  replace (mx - (pk + 1) + 1) with (mx - pk) by lia.
  destruct (InitFilters_slope_spec false (Z.to_nat (mx - pk)) f mx (mx - pk) (pk + 1)
              (pk - mn + 1) w1 n maxBins) as (w2 & Hrun2 & Hs2 & Hf2 & Hv2 & Hfr2);
    try (unfold small, is_int32 in *; lia); auto.
  rewrite Z.add_0_l. rewrite Hrun2. simpl.
  exists w2. split; [reflexivity|]. split; [exact Hs2|]. split; [exact Hf2|].
  rewrite Z2Nat.id in * by lia. split.
  - intros b Hb. destruct (Z.le_gt_cases b pk) as [Hle|Hgt].
    + rewrite Hfr2 by (try apply in_bounds_2; lia).
      replace (b - mn) with (0 + (b - mn)) by lia.
      rewrite Hv1 by lia. f_equal. unfold slope_quot.
      replace (mn + (b - mn) - mn) with (b - mn) by lia.
      destruct (Z.eqb_spec b pk) as [->|Hne].
      * now rewrite Z.quot_same by lia.
      * now rewrite Z.quot_small by lia.
    + replace (b - mn) with (pk - mn + 1 + (b - pk - 1)) by lia.
      rewrite Hv2 by lia. f_equal. unfold slope_quot.
      destruct (Z.eqb_spec b pk) as [->|Hne]; [lia|].
      now rewrite Z.quot_small by lia.
  - intros f' c Hin Hne.
    rewrite Hfr2 by auto. apply Hfr1; auto.
Qed.

Lemma InitFilters_weights_spec (ptsBin : Int32) (n maxBins : Z) (k : nat) :
  forall (f : Z) (filters : Float32),
    Shp filters = [n; maxBins] -> filled filters ->
    rising_table ptsBin n maxBins ->
    0 <= f -> f + Z.of_nat k = n ->
    exists w,
      InitFilters_weights k f ptsBin filters = Some w /\
      Shp w = [n; maxBins] /\ filled w /\
      (forall f' mn pk mx b, f <= f' < n -> filter_bins ptsBin f' mn pk mx ->
         mn <= b <= mx ->
         Value w [f'; b - mn] = Some (if b =? pk then F32.one else F32.zero)) /\
      (forall f' c, in_bounds [f'; c] [n; maxBins] -> f' < f ->
         Value w [f'; c] = Value filters [f'; c]).
Proof.
  induction k as [|k IH]; intros f filters Hs Hf Htab Hf0 Hfk.
  - exists filters. simpl. split; [reflexivity|]. split; [exact Hs|].
    split; [exact Hf|]. split; [intros; lia|reflexivity].
  - destruct (Htab f) as (mn & pk & mx & Hbins & Imn & Imx & Hord & Hfit); [lia|].
    destruct (InitFilters_filter_spec ptsBin f filters n maxBins mn pk mx)
      as (w1 & Hrun1 & Hs1 & Hf1 & Hv1 & Hfr1); auto; [lia|].
    simpl. rewrite Hrun1. simpl.
    destruct (IH (f + 1) w1) as (w & Hrun & Hsw & Hfw & Hv & Hfr); auto; try lia.
    exists w. split; [exact Hrun|]. split; [exact Hsw|]. split; [exact Hfw|]. split.
    + intros f' mn' pk' mx' b Hf' Hbins' Hb.
      destruct (Z.eq_dec f' f) as [->|Hne].
      * destruct Hbins as (E1 & E2 & E3), Hbins' as (E1' & E2' & E3').
        assert (mn' = mn) by congruence. assert (pk' = pk) by congruence.
        assert (mx' = mx) by congruence. subst.
        rewrite Hfr by (try apply in_bounds_2; lia). now apply Hv1.
      * apply (Hv f' mn' pk' mx'); auto. lia.
    + intros f' c Hin Hlt. rewrite Hfr by (auto; lia).
      apply Hfr1; auto. lia.
Qed.

Lemma in_bounds_3 a b c n S C :
  in_bounds [a; b; c] [n; S; C] <-> 0 <= a < n /\ 0 <= b < S /\ 0 <= c < C.
Proof.
  unfold in_bounds. split.
  - intros H. inversion H as [|? ? ? ? H1 H2]; subst.
    inversion H2 as [|? ? ? ? H3 H4]; subst. inversion H4; subst. tauto.
  - intros (H1 & H2 & H3). repeat constructor; lia.
Qed.





Lemma Set1D_Some {A} (tsr tsr' : Tensor A) (i : Z) (v : A) :
  Set1D tsr i v = Some tsr' ->
  Shp tsr' = Shp tsr /\ Value1D tsr' i = Some v /\
  forall j, j <> i -> Value1D tsr' j = Value1D tsr j.
Proof.
  unfold Set1D. destruct (Slice.set (Values tsr) i v) as [vs|] eqn:Hset; [|discriminate].
  simpl. intros [= <-]. split; [reflexivity|]. split.
  - unfold Value1D. simpl. eapply SliceFacts.get_set_eq, Hset.
  - intros j Hj. unfold Value1D. simpl. eapply SliceFacts.get_set_ne; eauto.
Qed.

Lemma MelFilterDft_loop_spec (m32 : Math32) (mel : Mel.t) (ch step : Z)
  (power : Float32) (n S C : Z) (k : nat) :
  forall (f : Z) (out trial out' trial' : Float32),
    MelFilterDft_loop m32 k f mel ch step power (out, trial) = Some (out', trial') ->
    Shp trial = [n; S; C] -> filled trial ->
    0 <= step < S -> 0 <= ch < C -> 0 <= f -> f + Z.of_nat k <= n ->
    Shp trial' = [n; S; C] /\ filled trial' /\
    (forall f', f <= f' < f + Z.of_nat k ->
       exists v, MelFilterDft_filter m32 mel f' power = Some v /\
         Value1D out' f' = Some v /\ Value trial' [f'; step; ch] = Some v) /\
    (forall j, j < f -> Value1D out' j = Value1D out j) /\
    (forall idx, in_bounds idx [n; S; C] ->
       (forall f', f <= f' -> idx <> [f'; step; ch]) ->
       Value trial' idx = Value trial idx).
Proof.
  induction k as [|k IH]; intros f out trial out' trial' H Hs Hf Hstep Hch Hf0 Hfk.
  - simpl in H. injection H as <- <-.
    split; [exact Hs|]. split; [exact Hf|]. split; [intros; lia|]. split; reflexivity.
  - cbn [MelFilterDft_loop] in H.
    destruct (MelFilterDft_filter m32 mel f power) as [v|] eqn:Hv; [|discriminate].
    simpl in H.
    destruct (Set1D out f v) as [out1|] eqn:Ho; [|discriminate]. simpl in H.
    destruct (SetAt trial [f; step; ch] v) as [t1|] eqn:Ht; [|discriminate].
    simpl in H.
    destruct (SetAt_in_bounds trial [f; step; ch] v Hf)
      as (t1' & Ht' & Hs1 & Hf1 & Hv1 & Hfr1).
    { rewrite Hs. apply in_bounds_3. lia. }
    rewrite Ht in Ht'. injection Ht' as <-.
    destruct (Set1D_Some _ _ _ _ Ho) as (_ & Ho1 & Hofr).
    apply IH in H; try lia; try congruence; auto.
    destruct H as (Hs' & Hf' & Hvals & Hout & Hfr).
    split; [exact Hs'|]. split; [exact Hf'|]. split; [|split].
    + intros f' Hf'r. destruct (Z.eq_dec f' f) as [->|Hne].
      * exists v. split; [exact Hv|]. split.
        -- rewrite Hout by lia. exact Ho1.
        -- rewrite Hfr; [exact Hv1| |].
           ++ apply in_bounds_3. lia.
           ++ intros f' Hle E. inversion E. lia.
      * apply Hvals. lia.
    + intros j Hj. rewrite Hout by lia. apply Hofr. lia.
    + intros idx Hin Hne. rewrite Hfr; auto.
      * apply Hfr1; [now rewrite Hs|]. apply Hne. lia.
      * intros f' Hle. apply Hne. lia.
Qed.



(** C1 on the code: the slope quotient is taken on integers, so on every
    table whose filters rise over at least one bin the weight of a filter
    is 1 at its peak bin and 0 at every other bin from minBin to maxBin;
    nothing rises or falls linearly in between. *)
Theorem InitFilters_weights_integer_quotient (ptsBin : Int32) (filters : Float32)
  (n maxBins : Z) :
  Shp filters = [n; maxBins] -> filled filters -> 0 <= n ->
  rising_table ptsBin n maxBins ->
  exists w,
    InitFilters_weights (Z.to_nat n) 0 ptsBin filters = Some w /\
    forall f mn pk mx b, 0 <= f < n -> filter_bins ptsBin f mn pk mx ->
      mn <= b <= mx ->
      Value w [f; b - mn] = Some (if b =? pk then F32.one else F32.zero).
Proof.
  intros Hs Hf Hn Htab.
  destruct (InitFilters_weights_spec ptsBin n maxBins (Z.to_nat n) 0 filters)
    as (w & Hrun & _ & _ & Hv & _); auto; try lia.
  exists w. split; [exact Hrun|]. intros f mn pk mx b Hfr. now apply Hv.
Qed.

Lemma InitFilters_weights_integer_quotient_witness :
  exists w,
    InitFilters_weights (Z.to_nat 1) 0 table_0_2_4 (zeros [1; 5]) = Some w /\
    forall f mn pk mx b, 0 <= f < 1 -> filter_bins table_0_2_4 f mn pk mx ->
      mn <= b <= mx ->
      Value w [f; b - mn] = Some (if b =? pk then F32.one else F32.zero).
Proof.
  apply (InitFilters_weights_integer_quotient table_0_2_4 (zeros [1; 5]) 1 5).
  - reflexivity.
  - split; vm_compute; [reflexivity|discriminate].
  - lia.
  - intros f Hf. assert (f = 0) as -> by lia. exists 0, 2, 4.
    unfold filter_bins, is_int32. repeat split; (reflexivity || lia).
Defined.

(** The weights of the table 0, 2, 4: the claimed ramp 0, 1/2, 1, 1/2, 0
    comes out as 0, 0, 1, 0, 0. *)
Lemma InitFilters_weights_0_2_4 :
  InitFilters_weights 1 0 table_0_2_4 (zeros [1; 5])
  = Some (mkTensor [1; 5] [F32.zero; F32.zero; F32.one; F32.zero; F32.zero]).
Proof. vm_compute. reflexivity. Qed.

(** C5, amended: a filter whose falling divisor maxBin - peakBin is zero is
    not rejected.  On every table whose filters rise over at least one
    bin, falling side empty or not, the weight loop completes; the zero
    divisor is never used, and every weight from minBin to maxBin is a
    finite number. *)
Theorem InitFilters_weights_flat_fall_accepted (ptsBin : Int32) (filters : Float32)
  (n maxBins : Z) :
  Shp filters = [n; maxBins] -> filled filters -> 0 <= n ->
  rising_table ptsBin n maxBins ->
  exists w,
    InitFilters_weights (Z.to_nat n) 0 ptsBin filters = Some w /\
    forall f mn pk mx b, 0 <= f < n -> filter_bins ptsBin f mn pk mx ->
      mn <= b <= mx ->
      exists v, Value w [f; b - mn] = Some v /\ is_finite v = true.
Proof.
  intros Hs Hf Hn Htab.
  destruct (InitFilters_weights_spec ptsBin n maxBins (Z.to_nat n) 0 filters)
    as (w & Hrun & _ & _ & Hv & _); auto; try lia.
  exists w. split; [exact Hrun|]. intros f mn pk mx b Hfr Hbins Hb.
  eexists. split; [now apply (Hv f mn pk mx)|].
  now destruct (b =? pk).
Qed.

Lemma InitFilters_weights_flat_fall_accepted_witness :
  exists w,
    InitFilters_weights (Z.to_nat 1) 0 table_0_1_1 (zeros [1; 2]) = Some w /\
    forall f mn pk mx b, 0 <= f < 1 -> filter_bins table_0_1_1 f mn pk mx ->
      mn <= b <= mx ->
      exists v, Value w [f; b - mn] = Some v /\ is_finite v = true.
Proof.
  apply (InitFilters_weights_flat_fall_accepted table_0_1_1 (zeros [1; 2]) 1 2).
  - reflexivity.
  - split; vm_compute; [reflexivity|discriminate].
  - lia.
  - intros f Hf. assert (f = 0) as -> by lia. exists 0, 1, 1.
    unfold filter_bins, is_int32. repeat split; (reflexivity || lia).
Defined.

(** C5 as stated fails on the table 0, 1, 1: the falling divisor of its
    filter is 1 - 1 = 0, and the weights are written all the same. *)
Lemma InitFilters_weights_0_1_1 :
  filter_bins table_0_1_1 0 0 1 1 /\
  GoInt.sub 1 1 = 0 /\
  InitFilters_weights 1 0 table_0_1_1 (zeros [1; 2])
  = Some (mkTensor [1; 2] [F32.zero; F32.one]).
Proof. vm_compute. repeat split; reflexivity. Qed.

(** One pass of [CopyStepFromStep] over a trial tensor: every filter's
    value at step [fm] is now also at step [to], nothing else moved. *)
Lemma CopyStepFromStep_loop_spec (to fm ch n S C : Z) (k : nat) :
  forall (i : Z) (trial trial' : Float32),
    CopyStepFromStep_loop k i to fm ch trial = Some trial' ->
    Shp trial = [n; S; C] -> filled trial ->
    0 <= to < S -> 0 <= fm < S -> 0 <= ch < C -> 0 <= i -> i + Z.of_nat k <= n ->
    Shp trial' = [n; S; C] /\ filled trial' /\
    (forall i', i <= i' < i + Z.of_nat k ->
       Value trial' [i'; to; ch] = Value trial [i'; fm; ch]) /\
    (forall idx, in_bounds idx [n; S; C] ->
       (forall i', i <= i' -> idx <> [i'; to; ch]) ->
       Value trial' idx = Value trial idx).
Proof.
  induction k as [|k IH]; intros i trial trial' H Hs Hf Hto Hfm Hch Hi Hik.
  - simpl in H. injection H as <-.
    split; [exact Hs|]. split; [exact Hf|]. split; [intros; lia|reflexivity].
  - cbn [CopyStepFromStep_loop] in H.
    destruct (Value trial [i; fm; ch]) as [val|] eqn:Hval; [|discriminate].
    simpl in H.
    destruct (SetAt trial [i; to; ch] val) as [t1|] eqn:Ht; [|discriminate].
    simpl in H.
    destruct (SetAt_in_bounds trial [i; to; ch] val Hf)
      as (t1' & Ht' & Hs1 & Hf1 & Hv1 & Hfr1).
    { rewrite Hs. apply in_bounds_3. lia. }
    rewrite Ht in Ht'. injection Ht' as <-.
    apply IH in H; try lia; try congruence; auto.
    destruct H as (Hs' & Hf' & Hvals & Hfr).
    split; [exact Hs'|]. split; [exact Hf'|]. split.
    + intros i' Hi'. destruct (Z.eq_dec i' i) as [->|Hne].
      * rewrite Hfr; [congruence| |].
        -- apply in_bounds_3. lia.
        -- intros i' Hle E. inversion E. lia.
      * rewrite Hvals by lia. apply Hfr1.
        -- rewrite Hs. apply in_bounds_3. lia.
        -- intros E. inversion E. lia.
    + intros idx Hin Hne. rewrite Hfr; auto.
      * apply Hfr1; [now rewrite Hs|]. apply Hne. lia.
      * intros i' Hle. apply Hne. lia.
Qed.

(** [CopyStepFromStep] on the mel trial tensor of a bank that is on. *)
Lemma CopyStepFromStep_spec (mel mel' : Mel.t) (to fm ch S C : Z) :
  CopyStepFromStep mel to fm ch = Some mel' ->
  MelFBank.On (MelFBank mel) = true ->
  Shp (MelFBankTrialOut mel) = [MelFBank.NFilters (MelFBank mel); S; C] ->
  filled (MelFBankTrialOut mel) ->
  0 <= to < S -> 0 <= fm < S -> 0 <= ch < C ->
  0 <= MelFBank.NFilters (MelFBank mel) ->
  MelFBank mel' = MelFBank mel /\
  Shp (MelFBankTrialOut mel') = Shp (MelFBankTrialOut mel) /\
  filled (MelFBankTrialOut mel') /\
  (forall i, 0 <= i < MelFBank.NFilters (MelFBank mel) ->
     Value (MelFBankTrialOut mel') [i; to; ch]
     = Value (MelFBankTrialOut mel) [i; fm; ch]) /\
  (forall idx, in_bounds idx (Shp (MelFBankTrialOut mel)) ->
     (forall i, idx <> [i; to; ch]) ->
     Value (MelFBankTrialOut mel') idx = Value (MelFBankTrialOut mel) idx).
Proof.
  unfold CopyStepFromStep. intros H Hon Hs Hf Hto Hfm Hch Hn. rewrite Hon in H.
  destruct (CopyStepFromStep_loop _ 0 to fm ch (MelFBankTrialOut mel))
    as [trial|] eqn:Hloop; [|discriminate].
  simpl in H.
  eapply CopyStepFromStep_loop_spec in Hloop; eauto; try lia.
  destruct Hloop as (Hs' & Hf' & Hvals & Hfr).
  assert (E : MelFBankTrialOut mel' = trial /\ MelFBank mel' = MelFBank mel).
  { destruct (MelCepstrumSpec.On (Mfcc mel)).
    - destruct (CopyStepFromStep_loop _ 0 to fm ch (MfccDctTrialOut mel));
        [|discriminate].
      simpl in H. injection H as <-. split; reflexivity.
    - injection H as <-. split; reflexivity. }
  destruct E as [-> ->].
  split; [reflexivity|]. split; [congruence|]. split; [exact Hf'|]. split.
  - intros i Hi. apply Hvals. lia.
  - intros idx Hin Hne. apply Hfr; [now rewrite <- Hs|]. intros i' _. apply Hne.
Qed.

End MelFacts.

(** ** audio: the trial driver *)

Module AuditoryProcFacts.
Import GoInt GoIntFacts etensor etensorSpec etensorFacts AuditoryProc AuditoryProcSpec.

(** C6 on the code: the guard reads [tIdx > outRaw.Dim(4)], so the tap at
    [tIdx = Dim(4)], one past the last time slot, is not skipped.  With
    tensors shaped [2, 1, 2, 2, 1] and two time taps, the writes of tap 1
    land at the indices [0,0,_,_,1], outside the time extent 1: in the flat
    storage they overwrite the results of tap 0 (cells 1 to 3) and the
    first cell of channel 1 (cell 4). *)
Theorem GaborFilter_writes_past_extent (ext : Ext) :
  Dim fives 4 = Some 1 /\
  GaborFilter ext ap_respaced 0 gabor_respaced (mkTensor [1; 1; 1] [F32.one]) fives fives
  = Some (mkTensor [2; 1; 2; 2; 1]
            [F32.one; F32.one; F32.one; F32.zero; F32.zero; five; five; five],
          mkTensor [2; 1; 2; 2; 1]
            [F32.one; F32.one; F32.one; F32.zero; F32.zero; five; five; five]).
Proof. split; vm_compute; reflexivity. Qed.

Lemma quot_in_range_pos a d : 0 < d -> in_range a -> 0 <= a -> in_range (Z.quot a d).
Proof.
  intros Hd Ha Ha'. apply MelFacts.quot_in_range; [lia|exact Ha|].
  unfold max_int. lia.
Qed.

(** What no step of [Initialize] touches, and what it resets. *)
Definition same_input (ap ap' : AuditoryProc.t) : Prop :=
  Input ap' = Input ap /\ SoundFull ap' = SoundFull ap.

Lemma InitGaborFilters_frame (ext : Ext) (ap ap' : AuditoryProc.t) :
  InitGaborFilters ext ap = Some ap' -> same_input ap ap'.
Proof.
  unfold InitGaborFilters, same_input. intros H.
  repeat (case_match; simplify_option_eq); simpl; auto.
Qed.

Lemma InitOutMatrix_frame (ap ap' : AuditoryProc.t) :
  InitOutMatrix ap = Some ap' -> same_input ap ap'.
Proof.
  unfold InitOutMatrix, InitOutMatrix_gabor, same_input. intros H.
  repeat (case_match; simplify_option_eq); simpl; auto.
Qed.

Lemma InitDataTable_frame (ext : Ext) (ap : AuditoryProc.t) :
  same_input ap (InitDataTable ext ap) /\
  (is_Some (Data ap) -> is_Some (Data (InitDataTable ext ap))).
Proof.
  unfold InitDataTable, same_input.
  destruct (Data ap) as [dt|] eqn:Hd.
  - destruct (1 <? Input.Channels (Input ap)); simpl; repeat split; eauto.
  - repeat split. rewrite Hd. intros [? ?]. discriminate.
Qed.

Lemma Initialize_resets (ext : Ext) (ap ap' : AuditoryProc.t) :
  Initialize ext ap = Some ap' ->
  InputPos ap' = 0 /\ Input ap' = Input.Initialize (Input ap) /\
  SoundFull ap' = SoundFull ap /\ is_Some (Data ap').
Proof.
  unfold Initialize. intros H.
  set (input := Input.Initialize (Input ap)) in *. clearbody input.
  destruct (Mel.Initialize _ _ _ _ _) as [mel|]; [|discriminate].
  cbn [mbind option_bind] in H.
  destruct (InitGaborFilters ext _) as [ap1|] eqn:H1; [|discriminate].
  cbn [mbind option_bind] in H.
  destruct (InitOutMatrix ap1) as [ap2|] eqn:H2; [|discriminate].
  cbn [mbind option_bind] in H.
  injection H as <-.
  apply InitGaborFilters_frame in H1 as [I1 S1].
  apply InitOutMatrix_frame in H2 as [I2 S2].
  destruct (InitDataTable_frame ext (set_Data (Some (mkTable 0 [])) ap2))
    as [[I3 S3] D3].
  cbn in *. split; [reflexivity|].
  split; [congruence|]. split; [congruence|]. apply D3. eauto.
Qed.



Lemma Input_Initialize_default (input : Input.t) :
  Input.Initialize input
  = Input.mk (F32.of_int 25) (F32.of_int 5) (F32.of_int 100) 12 16000 1 0
      400 80 1600 20 44.
Proof. destruct input. vm_compute. reflexivity. Qed.

Lemma ProcessTrial_after_Initialize (ext : Ext) (ap : AuditoryProc.t) :
  NeedsInit ap = true ->
  80 <= Slice.len (Values (SoundFull ap)) <= max_int ->
  ProcessTrial ext ap = None \/ exists ap', ProcessTrial ext ap = Some (ap', true).
Proof.
  intros Hn Hlen.
  unfold ProcessTrial. rewrite Hn.
  destruct (Initialize ext ap) as [ap1|] eqn:Hi; [|left; reflexivity].
  apply Initialize_resets in Hi as (Hpos & Hin & Hsound & [dt Hdt]).
  rewrite Input_Initialize_default in Hin.
  cbn [mbind option_bind]. rewrite Hdt. cbn [mbind option_bind].
  assert (Hleft : exists left, 1 <= left /\
            InputStepsLeft (set_Data (Some (AddRows ext dt 1)) ap1) = Some left).
  { unfold InputStepsLeft. cbn [SoundFull InputPos Input set_Data].
    rewrite Hpos, Hin, Hsound. cbn [Input.StepSamples]. unfold quo, sub.
    change (80 =? 0) with false. cbv iota. eexists. split; [|reflexivity].
    assert (R1 : in_range (Slice.len (Values (SoundFull ap)) - 0))
      by (unfold in_range, min_int, max_int in *; lia).
    rewrite (wrap_id _ R1).
    assert (R2 : in_range (Z.quot (Slice.len (Values (SoundFull ap)) - 0) 80))
      by (apply quot_in_range_pos; [lia|exact R1|lia]).
    rewrite (wrap_id _ R2).
    apply Z.quot_le_lower_bound; lia. }
  destruct Hleft as (left & Hl & Hleft).
  rewrite Hleft. cbn [mbind option_bind].
  destruct (Z.ltb_spec left 1); [lia|].
  cbn [InputPos set_Data]. rewrite Hpos.
  change (0 =? 0) with true. cbv iota.
  destruct (ProcessTrial_channels ext _ _ _ _ _ _) as [ap2|];
    cbn [mbind option_bind]; [right; eauto|left; reflexivity].
Qed.

(** An analyzer that needs re-initialization never reports insufficient
    input when its sound holds one default step of 80 samples, wherever
    its position was: [Initialize] resets the position to 0 and the step
    to 80 samples before the check, so the call either panics or processes
    a trial from the start of the sound and returns true. *)
Theorem ProcessTrial_reinitialized_restarts (ext : Ext) (ap : AuditoryProc.t) :
  NeedsInit ap = true ->
  80 <= Slice.len (Values (SoundFull ap)) <= max_int ->
  ProcessTrial ext ap = None \/ exists ap', ProcessTrial ext ap = Some (ap', true).
Proof. apply ProcessTrial_after_Initialize. Qed.

Lemma ProcessTrial_reinitialized_restarts_witness :
  InputStepsLeft exhausted_uninitialized = Some 0 /\
  (ProcessTrial ext_idle exhausted_uninitialized = None \/
   exists ap', ProcessTrial ext_idle exhausted_uninitialized = Some (ap', true)).
Proof.
  split; [vm_compute; reflexivity|].
  apply (ProcessTrial_reinitialized_restarts ext_idle exhausted_uninitialized).
  - vm_compute. reflexivity.
  - vm_compute. split; discriminate.
Defined.

(** C3 as stated fails on an analyzer that needs re-initialization: at
    the end of its sound no step is left, and yet [ProcessTrial] does not
    return false.  It runs [Initialize] first, which resets the input
    position to 0, so one step of input is available again and the trial
    is processed from the start of the sound. *)
Lemma ProcessTrial_reinitializes :
  NeedsInit exhausted_uninitialized = true /\
  InputStepsLeft exhausted_uninitialized = Some 0 /\
  forall (ext : Ext) (ap' : AuditoryProc.t),
    ProcessTrial ext exhausted_uninitialized <> Some (ap', false).
Proof.
  assert (Hn : NeedsInit exhausted_uninitialized = true) by (vm_compute; reflexivity).
  split; [exact Hn|]. split; [vm_compute; reflexivity|].
  assert (Hlen : 80 <= Slice.len (Values (SoundFull exhausted_uninitialized)) <= max_int)
    by (vm_compute; split; discriminate).
  intros ext ap' H.
  destruct (ProcessTrial_after_Initialize ext exhausted_uninitialized Hn Hlen)
    as [E|[ap2 E]]; congruence.
Qed.


Import Mel MelSpec MelFacts AuditoryProc AuditoryProcSpec.



(** The cells of the mel trial tensor a state holds. *)
Abbreviation trial ap := (MelFBankTrialOut (Mel ap)).
Abbreviation bank ap := (MelFBank (Mel ap)).

Lemma FilterWindow_frame (m32 : Math32) (fl : Fourier) (mel mel' : Mel.t)
  (ch step S C : Z) (windowIn power : Float32) (first : bool) :
  Mel.FilterWindow m32 fl mel ch step windowIn power first = Some mel' ->
  Shp (MelFBankTrialOut mel) = [MelFBank.NFilters (MelFBank mel); S; C] ->
  filled (MelFBankTrialOut mel) ->
  0 <= step < S -> 0 <= ch < C -> 0 <= MelFBank.NFilters (MelFBank mel) ->
  MelFBank mel' = MelFBank mel /\
  Shp (MelFBankTrialOut mel') = Shp (MelFBankTrialOut mel) /\
  filled (MelFBankTrialOut mel') /\
  (forall idx, in_bounds idx (Shp (MelFBankTrialOut mel)) ->
     (forall f, idx <> [f; step; ch]) ->
     Value (MelFBankTrialOut mel') idx = Value (MelFBankTrialOut mel) idx).
Proof.
  unfold Mel.FilterWindow. intros H Hs Hf Hstep Hch Hn.
  destruct (MelFBank.On (MelFBank mel)).
  2:{ injection H as <-. split; [reflexivity|]. split; [reflexivity|]. split; [exact Hf|]. reflexivity. }
  destruct (MelFilterDft m32 mel ch step power) as [mel1|] eqn:Hd; [|discriminate].
  cbn [mbind option_bind] in H.
  unfold MelFilterDft in Hd.
  destruct (MelFilterDft_loop _ _ _ _ _ _ _ _) as [[out' trial']|] eqn:Hloop;
    [|discriminate].
  cbn [mbind option_bind] in Hd. injection Hd as <-.
  eapply MelFilterDft_loop_spec in Hloop; eauto; try lia.
  destruct Hloop as (Hs' & Hf' & _ & _ & Hfr).
  assert (E : MelFBankTrialOut mel' = trial' /\ MelFBank mel' = MelFBank mel).
  { cbn [Mfcc set_MelFBankOut] in H.
    destruct (MelCepstrumSpec.On (Mfcc mel)).
    - unfold CepstrumDctMel in H.
      repeat (match type of H with
              | (match ?x with _ => _ end) = _ => destruct x; [|discriminate]
              | (mbind _ ?x) = _ => destruct x; [|discriminate]
              end; cbn [mbind option_bind] in H).
      injection H as <-. split; reflexivity.
    - injection H as <-. split; reflexivity. }
  destruct E as [-> ->].
  split; [reflexivity|]. split; [congruence|]. split; [exact Hf'|].
  intros idx Hin Hne. apply Hfr; [now rewrite <- Hs|]. intros f _. apply Hne.
Qed.

Lemma SoundToWindow_frame (ap ap' : AuditoryProc.t) (inPos ch : Z) :
  SoundToWindow ap inPos ch = Some ap' ->
  exists win, ap' = set_WindowIn win ap.
Proof.
  unfold SoundToWindow. intros H.
  repeat (match type of H with
          | (mbind _ ?x) = _ => destruct x; [|discriminate]
          end; cbn [mbind option_bind] in H).
  injection H as <-. eauto.
Qed.



Lemma FilterTrial_frame (ext : Ext) (ap ap' : AuditoryProc.t) (ch : Z) :
  FilterTrial ext ap ch = Some ap' -> Mel ap' = Mel ap /\ Input ap' = Input ap.
Proof.
  unfold FilterTrial. intros H.
  match type of H with
  | (mbind _ ?x) = _ =>
      assert (E1 : forall a, x = Some a -> Mel a = Mel ap /\ Input a = Input ap);
      [|destruct x as [ap1|]; [|discriminate]]
  end.
  { intros a Ha. destruct (Gabor.On (Gabor1 ap)).
    - destruct (GaborFilter _ _ _ _ _ _ _) as [[raw out]|]; [|discriminate].
      injection Ha as <-. split; reflexivity.
    - injection Ha as <-. split; reflexivity. }
  destruct (E1 ap1 eq_refl) as [Em1 Ei1]. cbn [mbind option_bind] in H.
  match type of H with
  | (mbind _ ?x) = _ =>
      assert (E2 : forall a, x = Some a -> Mel a = Mel ap1 /\ Input a = Input ap1);
      [|destruct x as [ap2|]; [|discriminate]]
  end.
  { intros a Ha. destruct (Gabor.On (Gabor2 ap1)).
    - destruct (GaborFilter _ _ _ _ _ _ _) as [[raw out]|]; [|discriminate].
      injection Ha as <-. split; reflexivity.
    - injection Ha as <-. split; reflexivity. }
  destruct (E2 ap2 eq_refl) as [Em2 Ei2]. cbn [mbind option_bind] in H.
  destruct (Gabor.On (Gabor3 ap2)).
  - destruct (GaborFilter _ _ _ _ _ _ _) as [[raw out]|]; [|discriminate].
    injection H as <-. split; [exact (eq_trans Em2 Em1)|exact (eq_trans Ei2 Ei1)].
  - injection H as <-. split; congruence.
Qed.

Lemma OutputToTable_frame (ext : Ext) (ap : AuditoryProc.t) (ch : Z) :
  Mel (OutputToTable ext ap ch) = Mel ap /\ Input (OutputToTable ext ap ch) = Input ap.
Proof.
  unfold OutputToTable. destruct (Data ap); [|split; reflexivity].
  destruct (MelFBank.On _); split; reflexivity.
Qed.










(** CopyStepFromStep, with the bank on: for every filter the cell of step
    [to] of channel [ch] takes the value of step [fm]; every other cell of
    the trial tensor, its shape and the bank settings are as before. *)
Theorem CopyStepFromStep_copies (mel mel' : Mel.t) (to fm ch S C : Z) :
  CopyStepFromStep mel to fm ch = Some mel' ->
  MelFBank.On (MelFBank mel) = true ->
  Shp (MelFBankTrialOut mel) = [MelFBank.NFilters (MelFBank mel); S; C] ->
  filled (MelFBankTrialOut mel) ->
  0 <= to < S -> 0 <= fm < S -> 0 <= ch < C ->
  0 <= MelFBank.NFilters (MelFBank mel) ->
  MelFBank mel' = MelFBank mel /\
  Shp (MelFBankTrialOut mel') = Shp (MelFBankTrialOut mel) /\
  filled (MelFBankTrialOut mel') /\
  (forall i, 0 <= i < MelFBank.NFilters (MelFBank mel) ->
     Value (MelFBankTrialOut mel') [i; to; ch]
     = Value (MelFBankTrialOut mel) [i; fm; ch]) /\
  (forall idx, in_bounds idx (Shp (MelFBankTrialOut mel)) ->
     (forall i, idx <> [i; to; ch]) ->
     Value (MelFBankTrialOut mel') idx = Value (MelFBankTrialOut mel) idx).
Proof. exact (CopyStepFromStep_spec mel mel' to fm ch S C). Qed.

Lemma CopyStepFromStep_copies_witness :
  MelFBank mel_running_copied = MelFBank mel_running /\
  Shp (MelFBankTrialOut mel_running_copied) = Shp (MelFBankTrialOut mel_running) /\
  filled (MelFBankTrialOut mel_running_copied) /\
  (forall i, 0 <= i < 1 ->
     Value (MelFBankTrialOut mel_running_copied) [i; 0; 0]
     = Value (MelFBankTrialOut mel_running) [i; 2; 0]) /\
  (forall idx, in_bounds idx (Shp (MelFBankTrialOut mel_running)) ->
     (forall i, idx <> [i; 0; 0]) ->
     Value (MelFBankTrialOut mel_running_copied) idx
     = Value (MelFBankTrialOut mel_running) idx).
Proof.
  apply (CopyStepFromStep_copies mel_running mel_running_copied 0 2 0 3 1).
  - vm_compute. reflexivity.
  - reflexivity.
  - reflexivity.
  - split; vm_compute; [reflexivity|discriminate].
  - lia.
  - lia.
  - lia.
  - vm_compute. discriminate.
Defined.

(** FilterWindow writes the mel trial tensor only in the column of its
    step and channel: every cell of another step or channel, the shape of
    the tensor and the bank settings are as before, with or without the
    cepstrum stage. *)
Theorem FilterWindow_touches_column (m32 : Math32) (fl : Fourier) (mel mel' : Mel.t)
  (ch step S C : Z) (windowIn power : Float32) (first : bool) :
  Mel.FilterWindow m32 fl mel ch step windowIn power first = Some mel' ->
  Shp (MelFBankTrialOut mel) = [MelFBank.NFilters (MelFBank mel); S; C] ->
  filled (MelFBankTrialOut mel) ->
  0 <= step < S -> 0 <= ch < C -> 0 <= MelFBank.NFilters (MelFBank mel) ->
  MelFBank mel' = MelFBank mel /\
  Shp (MelFBankTrialOut mel') = Shp (MelFBankTrialOut mel) /\
  filled (MelFBankTrialOut mel') /\
  (forall idx, in_bounds idx (Shp (MelFBankTrialOut mel)) ->
     (forall f, idx <> [f; step; ch]) ->
     Value (MelFBankTrialOut mel') idx = Value (MelFBankTrialOut mel) idx).
Proof. exact (FilterWindow_frame m32 fl mel mel' ch step S C windowIn power first). Qed.

Lemma FilterWindow_touches_column_witness :
  MelFBank mel_running_filtered = MelFBank mel_running /\
  Shp (MelFBankTrialOut mel_running_filtered) = Shp (MelFBankTrialOut mel_running) /\
  filled (MelFBankTrialOut mel_running_filtered) /\
  (forall idx, in_bounds idx (Shp (MelFBankTrialOut mel_running)) ->
     (forall f, idx <> [f; 2; 0]) ->
     Value (MelFBankTrialOut mel_running_filtered) idx
     = Value (MelFBankTrialOut mel_running) idx).
Proof.
  apply (FilterWindow_touches_column math32_id (fourier ext_idle) mel_running
           mel_running_filtered 0 2 3 1 (MelSpec.zeros [2]) MelSpec.power_2_3 false).
  - vm_compute. reflexivity.
  - reflexivity.
  - split; vm_compute; [reflexivity|discriminate].
  - lia.
  - lia.
  - vm_compute. discriminate.
Defined.

Lemma wrap_add_l (a b : Z) : wrap (wrap a + b) = wrap (a + b).
Proof.
  unfold wrap.
  replace ((a + 2 ^ 63) mod 2 ^ 64 - 2 ^ 63 + b + 2 ^ 63)
    with ((a + 2 ^ 63) mod 2 ^ 64 + b) by lia.
  rewrite Zplus_mod_idemp_l. f_equal. f_equal. lia.
Qed.

(** What [ProcessStep] does to the position: it advances by one step of
    samples; the sound and the geometry are not written. *)
Lemma ProcessStep_position (ext : Ext) (ap ap' : AuditoryProc.t) (ch step : Z) :
  ProcessStep ext ap ch step = Some ap' ->
  InputPos ap' = GoInt.add (InputPos ap) (Input.StepSamples (Input ap)) /\
  Input ap' = Input ap /\ SoundFull ap' = SoundFull ap.
Proof.
  unfold ProcessStep. intros H.
  destruct (SoundToWindow ap (InputPos ap) ch) as [ap1|] eqn:Hw; [|discriminate].
  cbn [mbind option_bind] in H.
  apply SoundToWindow_frame in Hw as [win ->].
  destruct (DftFilter ext _ ch step _ _) as [dft|]; [|discriminate].
  cbn [mbind option_bind] in H.
  destruct (Mel.FilterWindow _ _ _ ch step _ _ _) as [mel'|]; [|discriminate].
  cbn [mbind option_bind] in H. injection H as <-.
  split; [reflexivity|]. split; reflexivity.
Qed.

Lemma ProcessTrial_steps_position (ext : Ext) (ch : Z) (k : nat) :
  forall (s : Z) (ap ap' : AuditoryProc.t),
    ProcessTrial_steps ext k s ch ap = Some ap' ->
    in_range (InputPos ap) ->
    InputPos ap' = wrap (InputPos ap + Z.of_nat k * Input.StepSamples (Input ap)) /\
    Input ap' = Input ap /\ SoundFull ap' = SoundFull ap.
Proof.
  induction k as [|k IH]; intros s ap ap' H Hr.
  - cbn in H. injection H as <-. rewrite Z.add_0_r.
    split; [symmetry; now apply wrap_id|]. split; reflexivity.
  - cbn [ProcessTrial_steps] in H.
    destruct (ProcessStep ext ap ch s) as [ap1|] eqn:Hp; [|discriminate].
    cbn [mbind option_bind] in H.
    apply ProcessStep_position in Hp as (Hp1 & Hi1 & Hs1).
    apply IH in H; [|rewrite Hp1; apply wrap_in_range].
    destruct H as (Hp' & Hi' & Hs').
    split; [|split; congruence].
    rewrite Hp', Hp1, Hi1. unfold GoInt.add. rewrite wrap_add_l. f_equal. lia.
Qed.

Lemma WrapBorder_only_Mel (ap ap' : AuditoryProc.t) (ch : Z) :
  WrapBorder ap ch = Some ap' -> ap' = set_Mel (Mel ap') ap.
Proof.
  unfold WrapBorder. intros H.
  destruct (Input.BorderSteps (Input ap) =? 0).
  - injection H as <-. now destruct ap.
  - destruct (WrapBorder_loop _ _ _ _ _) as [mel|]; [|discriminate].
    injection H as <-. reflexivity.
Qed.

Lemma FilterTrial_position (ext : Ext) (ap ap' : AuditoryProc.t) (ch : Z) :
  FilterTrial ext ap ch = Some ap' ->
  InputPos ap' = InputPos ap /\ SoundFull ap' = SoundFull ap.
Proof.
  unfold FilterTrial. intros H.
  match type of H with
  | (mbind _ ?x) = _ =>
      assert (E1 : forall a, x = Some a ->
                InputPos a = InputPos ap /\ SoundFull a = SoundFull ap);
      [|destruct x as [ap1|]; [|discriminate]]
  end.
  { intros a Ha. destruct (Gabor.On (Gabor1 ap)).
    - destruct (GaborFilter _ _ _ _ _ _ _) as [[raw out]|]; [|discriminate].
      injection Ha as <-. split; reflexivity.
    - injection Ha as <-. split; reflexivity. }
  destruct (E1 ap1 eq_refl) as [Em1 Ei1]. cbn [mbind option_bind] in H.
  match type of H with
  | (mbind _ ?x) = _ =>
      assert (E2 : forall a, x = Some a ->
                InputPos a = InputPos ap1 /\ SoundFull a = SoundFull ap1);
      [|destruct x as [ap2|]; [|discriminate]]
  end.
  { intros a Ha. destruct (Gabor.On (Gabor2 ap1)).
    - destruct (GaborFilter _ _ _ _ _ _ _) as [[raw out]|]; [|discriminate].
      injection Ha as <-. split; reflexivity.
    - injection Ha as <-. split; reflexivity. }
  destruct (E2 ap2 eq_refl) as [Em2 Ei2]. cbn [mbind option_bind] in H.
  destruct (Gabor.On (Gabor3 ap2)).
  - destruct (GaborFilter _ _ _ _ _ _ _) as [[raw out]|]; [|discriminate].
    injection H as <-. split; [exact (eq_trans Em2 Em1)|exact (eq_trans Ei2 Ei1)].
  - injection H as <-. split; congruence.
Qed.

Lemma OutputToTable_position (ext : Ext) (ap : AuditoryProc.t) (ch : Z) :
  InputPos (OutputToTable ext ap ch) = InputPos ap /\
  SoundFull (OutputToTable ext ap ch) = SoundFull ap.
Proof.
  unfold OutputToTable. destruct (Data ap); [|split; reflexivity].
  destruct (MelFBank.On _); split; reflexivity.
Qed.

(** One pass of the channel loop: whatever the position was, the channel
    starts at [startPos] and ends [steps] steps further. *)
Lemma ProcessTrial_channel_position (ext : Ext) (wrap_border : bool)
  (startPos border ch : Z) (ap ap' : AuditoryProc.t) :
  ProcessTrial_channel ext wrap_border startPos border ch ap = Some ap' ->
  in_range startPos ->
  InputPos ap'
  = wrap (startPos
          + Z.of_nat (Z.to_nat (Input.TotalSteps (Input ap)
                                - (if wrap_border then border else 0)))
            * Input.StepSamples (Input ap)) /\
  Input ap' = Input ap /\ SoundFull ap' = SoundFull ap.
Proof.
  unfold ProcessTrial_channel. intros H Hr.
  set (ap0 := set_InputPos startPos ap) in *.
  assert (Hw : exists ap1, (if wrap_border then WrapBorder ap0 ch else Some ap0) = Some ap1
                           /\ ap1 = set_Mel (Mel ap1) ap0).
  { destruct wrap_border.
    - destruct (WrapBorder ap0 ch) as [ap1|] eqn:Hw; [|discriminate].
      exists ap1. split; [reflexivity|]. now apply WrapBorder_only_Mel in Hw.
    - exists ap0. split; [reflexivity|]. unfold ap0. now destruct ap. }
  destruct Hw as (ap1 & Hw & Hap1). rewrite Hw in H. cbn [mbind option_bind] in H.
  assert (Hi1 : Input ap1 = Input ap) by (rewrite Hap1; reflexivity).
  assert (Hp1 : InputPos ap1 = startPos) by (rewrite Hap1; reflexivity).
  assert (Hs1 : SoundFull ap1 = SoundFull ap) by (rewrite Hap1; reflexivity).
  destruct (ProcessTrial_steps ext _ _ ch ap1) as [ap2|] eqn:Hst; [|discriminate].
  cbn [mbind option_bind] in H.
  apply ProcessTrial_steps_position in Hst; [|now rewrite Hp1].
  destruct Hst as (Hp2 & Hi2 & Hs2).
  destruct (FilterTrial ext ap2 ch) as [ap3|] eqn:Hft; [|discriminate].
  cbn [mbind option_bind] in H. injection H as <-.
  destruct (FilterTrial_frame _ _ _ _ Hft) as [_ Hi3].
  destruct (FilterTrial_position _ _ _ _ Hft) as [Hp3 Hs3].
  destruct (OutputToTable_frame ext ap3 ch) as [_ ->].
  destruct (OutputToTable_position ext ap3 ch) as [-> ->].
  split; [|split; congruence].
  rewrite Hp3, Hp2, Hp1, Hi1. reflexivity.
Qed.

Lemma ProcessTrial_channels_position (ext : Ext) (wrap_border : bool)
  (startPos border : Z) (k : nat) :
  forall (ch : Z) (ap ap' : AuditoryProc.t),
    ProcessTrial_channels ext (S k) wrap_border startPos border ch ap = Some ap' ->
    in_range startPos ->
    InputPos ap'
    = wrap (startPos
            + Z.of_nat (Z.to_nat (Input.TotalSteps (Input ap)
                                  - (if wrap_border then border else 0)))
              * Input.StepSamples (Input ap)) /\
    Input ap' = Input ap /\ SoundFull ap' = SoundFull ap.
Proof.
  induction k as [|k IH]; intros ch ap ap' H Hr.
  - cbn [ProcessTrial_channels] in H.
    destruct (ProcessTrial_channel _ _ _ _ ch ap) as [ap1|] eqn:Hc; [|discriminate].
    cbn [mbind option_bind] in H. injection H as <-.
    now apply ProcessTrial_channel_position in Hc.
  - remember (S k) as k1. cbn [ProcessTrial_channels] in H.
    destruct (ProcessTrial_channel _ _ _ _ ch ap) as [ap1|] eqn:Hc; [|discriminate].
    cbn [mbind option_bind] in H. subst k1.
    apply ProcessTrial_channel_position in Hc as (_ & Hi1 & Hs1); [|exact Hr].
    apply IH in H as (Hp' & Hi' & Hs'); [|exact Hr].
    rewrite Hi1 in Hp'. split; [exact Hp'|]. split; congruence.
Qed.

(** A trial that returns true ends, on every channel, at the same
    position: the position it started from plus one step of samples for
    every step it computed -- all [TotalSteps] steps on the first trial of
    a sound, [TotalSteps - 2 * BorderSteps] on a later one (in Go's
    wrap-around arithmetic).  The sound and the input geometry are not
    written. *)
Theorem ProcessTrial_advances (ext : Ext) (ap ap' : AuditoryProc.t) :
  ProcessTrial ext ap = Some (ap', true) ->
  NeedsInit ap = false ->
  1 <= Input.Channels (Input ap) -> in_range (InputPos ap) ->
  0 <= Input.BorderSteps (Input ap) ->
  2 * Input.BorderSteps (Input ap) <= Input.TotalSteps (Input ap) ->
  Input.TotalSteps (Input ap) <= max_int ->
  InputPos ap'
  = wrap (InputPos ap
          + (if InputPos ap =? 0 then Input.TotalSteps (Input ap)
             else Input.TotalSteps (Input ap) - 2 * Input.BorderSteps (Input ap))
            * Input.StepSamples (Input ap)) /\
  Input ap' = Input ap /\ SoundFull ap' = SoundFull ap.
Proof.
  unfold ProcessTrial. intros H Hni HC Hr HB H2B HS.
  rewrite Hni in H. cbn [mbind option_bind] in H.
  destruct (Data ap) as [dt|]; [|discriminate]. cbn [mbind option_bind] in H.
  destruct (InputStepsLeft _) as [left|]; [|discriminate].
  cbn [mbind option_bind] in H.
  destruct (left <? 1); [discriminate|].
  cbn [InputPos Input set_Data] in H.
  assert (Emul : GoInt.mul 2 (Input.BorderSteps (Input ap))
                 = 2 * Input.BorderSteps (Input ap)).
  { apply wrap_id. unfold in_range, min_int, max_int in *. lia. }
  destruct (Z.to_nat (Input.Channels (Input ap))) as [|k] eqn:Ek; [lia|].
  destruct (InputPos ap =? 0).
  - match type of H with
    | (mbind _ (ProcessTrial_channels _ _ _ _ _ _ ?a)) = _ =>
        destruct (ProcessTrial_channels ext (S k) false (InputPos ap)
                    (GoInt.mul 2 (Input.BorderSteps (Input ap))) 0 a)
          as [ap1|] eqn:Hc; [|discriminate]
    end.
    cbn [mbind option_bind] in H. injection H as <-.
    apply ProcessTrial_channels_position in Hc as (Hp & Hi & Hs); [|exact Hr].
    cbn [Input SoundFull set_TrialPos set_Data] in Hp, Hi, Hs.
    split; [|split; assumption].
    rewrite Hp. f_equal. f_equal. f_equal. lia.
  - match type of H with
    | (mbind _ (ProcessTrial_channels _ _ _ _ _ _ ?a)) = _ =>
        destruct (ProcessTrial_channels ext (S k) true (InputPos ap)
                    (GoInt.mul 2 (Input.BorderSteps (Input ap))) 0 a)
          as [ap1|] eqn:Hc; [|discriminate]
    end.
    cbn [mbind option_bind] in H. injection H as <-.
    apply ProcessTrial_channels_position in Hc as (Hp & Hi & Hs); [|exact Hr].
    cbn [Input SoundFull set_TrialPos set_Data] in Hp, Hi, Hs.
    split; [|split; assumption].
    rewrite Hp, Emul. f_equal. f_equal. f_equal. lia.
Qed.

Lemma ProcessTrial_advances_witness :
  InputPos running_next = wrap (2 + (if 2 =? 0 then 3 else 3 - 2 * 1) * 1) /\
  Input running_next = Input running /\ SoundFull running_next = SoundFull running.
Proof.
  apply (ProcessTrial_advances ext_idle running running_next).
  - vm_compute. reflexivity.
  - reflexivity.
  - vm_compute. discriminate.
  - vm_compute. split; discriminate.
  - vm_compute. discriminate.
  - vm_compute. discriminate.
  - vm_compute. discriminate.
Defined.

(** What [InitFilters] writes of the geometry: the effective filter count
    and the dft use; the dft size and the bank settings are not written. *)
Lemma InitFilters_geometry (m32 : Math32) (mel mel' : Mel.t) (dftUse sampleRate : Z) :
  Mel.InitFilters m32 mel dftUse sampleRate = Some mel' ->
  MelFBank mel' = MelFBank mel /\ DftSize mel' = DftSize mel /\
  DftUse mel' = dftUse /\
  MelNFiltersEff mel' = GoInt.add (MelFBank.NFilters (MelFBank mel)) 2.
Proof.
  unfold Mel.InitFilters. intros H.
  repeat (match type of H with
          | (mbind _ ?x) = _ => destruct x as [?v|]; [|discriminate]
          end; cbn [mbind option_bind] in H;
          try match type of H with
              | (let '(_, _) := ?p in _) = _ => destruct p as [[? ?] ?]
              end).
  injection H as <-. repeat split.
Qed.

Lemma Mel_Initialize_geometry (m32 : Math32) (mel mel' : Mel.t)
  (dftUse winSamples sampleRate : Z) :
  Mel.Initialize m32 mel dftUse winSamples sampleRate = Some mel' ->
  DftSize mel' = DftSize mel /\ DftUse mel' = dftUse /\
  MelFBank.NFilters (MelFBank mel') = 32 /\ MelNFiltersEff mel' = 34 /\
  MelFBank.On (MelFBank mel') = true.
Proof.
  unfold Mel.Initialize. intros H.
  apply InitFilters_geometry in H as (Hb & Hd & Hu & He).
  rewrite Hb, Hd, Hu, He. repeat split.
Qed.

Lemma SetShape_Some {A} (zero : A) (tsr tsr' : Tensor A) (shape : list Z) :
  SetShape zero tsr shape = Some tsr' ->
  Shp tsr' = shape /\ Slice.len (Values tsr') = shape_len shape.
Proof.
  unfold SetShape. destruct (Z.ltb_spec (shape_len shape) 0); [discriminate|].
  intros H1. injection H1 as <-. split; [reflexivity|].
  unfold Slice.len. cbn [Values].
  rewrite length_app, length_take, length_replicate. lia.
Qed.


(** What [InitOutMatrix] does to the mel bank when it is on: the trial
    tensor is reshaped to filters x steps x channels; the geometry is not
    written. *)
Lemma InitOutMatrix_Mel (ap ap' : AuditoryProc.t) :
  InitOutMatrix ap = Some ap' ->
  MelFBank.On (bank ap) = true ->
  MelFBank (Mel ap') = MelFBank (Mel ap) /\ DftSize (Mel ap') = DftSize (Mel ap) /\
  MelNFiltersEff (Mel ap') = MelNFiltersEff (Mel ap) /\
  SetShape F32.zero (trial ap)
    [MelFBank.NFilters (bank ap); Input.TotalSteps (Input ap);
     Input.Channels (Input ap)] = Some (trial ap').
Proof.
  unfold InitOutMatrix. intros H Hon. cbv zeta in H. rewrite Hon in H.
  run_binds H;
    injection H as <-; cbn [Mel set_Mel Input set_Gabor1Out set_Gabor2Out set_Gabor3Out
                             set_Dft set_WindowIn];
    (split; [reflexivity|]); (split; [reflexivity|]); (split; [reflexivity|]);
    cbn [MelFBankTrialOut set_MfccDctOut set_MelFBankOut]; reflexivity.
Qed.




(** Mel.Initialize sets the default bank of 32 filters and the effective
    count of 34 that [NeedsInit] asks for, but never the dft size: after
    it, [NeedsInit] holds exactly when the dft size the bank had before
    differs from the window size. *)
Theorem Initialize_keeps_DftSize (m32 : Math32) (mel mel' : Mel.t)
  (dftUse winSamples sampleRate : Z) :
  Mel.Initialize m32 mel dftUse winSamples sampleRate = Some mel' ->
  DftSize mel' = DftSize mel /\
  MelFBank.NFilters (MelFBank mel') = 32 /\ MelNFiltersEff mel' = 34 /\
  (forall w, Mel.NeedsInit mel' w = negb (DftSize mel =? w)).
Proof.
  intros H. apply Mel_Initialize_geometry in H as (Hd & _ & Hn & He & _).
  split; [exact Hd|]. split; [exact Hn|]. split; [exact He|].
  intros w. unfold Mel.NeedsInit. rewrite Hd, He, Hn. apply orb_false_r.
Qed.

Lemma Initialize_keeps_DftSize_witness :
  DftSize mel_initialized = DftSize no_mel /\
  MelFBank.NFilters (MelFBank mel_initialized) = 32 /\
  MelNFiltersEff mel_initialized = 34 /\
  (forall w, Mel.NeedsInit mel_initialized w = negb (DftSize no_mel =? w)).
Proof.
  apply (Initialize_keeps_DftSize math32_id no_mel mel_initialized 201 400 16000).
  vm_compute. reflexivity.
Defined.

Lemma InitFilters_filter_zero_rise (ptsBin : Int32) (filters : Float32) (f mn : Z) :
  Value1D ptsBin f = Some mn -> Value1D ptsBin (f + 1) = Some mn ->
  InitFilters_filter ptsBin f filters = None.
Proof.
  intros Hmn Hpk. unfold InitFilters_filter. rewrite Hmn, Hpk.
  cbn [mbind option_bind].
  destruct (Value1D ptsBin (f + 2)) as [mx|]; [|reflexivity].
  cbn [mbind option_bind].
  replace (mn - mn + 1) with 1 by lia.
  change (Z.to_nat 1) with 1%nat. cbn [InitFilters_slope].
  unfold GoInt.sub. rewrite !Z.sub_diag.
  change (wrap 0) with 0. reflexivity.
Qed.

(** The weight loop of InitFilters panics on a table with a filter whose
    peak bin is its minimum bin: the rising divisor pkbin - mnbin is zero
    and the first quotient of that filter divides by it.  No weights are
    returned, whatever the other filters are. *)
Theorem InitFilters_weights_zero_rise_panics (ptsBin : Int32) (k : nat) :
  forall (f0 f mn : Z) (filters : Float32),
    f0 <= f < f0 + Z.of_nat k ->
    Value1D ptsBin f = Some mn -> Value1D ptsBin (f + 1) = Some mn ->
    InitFilters_weights k f0 ptsBin filters = None.
Proof.
  induction k as [|k IH]; intros f0 f mn filters Hf Hmn Hpk; [lia|].
  cbn [InitFilters_weights].
  destruct (Z.eq_dec f f0) as [->|Hne].
  - now rewrite (InitFilters_filter_zero_rise ptsBin filters f0 mn).
  - destruct (InitFilters_filter ptsBin f0 filters) as [w|]; [|reflexivity].
    cbn [mbind option_bind]. apply (IH (f0 + 1) f mn); [lia|exact Hmn|exact Hpk].
Qed.

Lemma InitFilters_weights_zero_rise_panics_witness :
  InitFilters_weights 2 0 (mkTensor [4] [0; 2; 2; 4]) (zeros [2; 5]) = None.
Proof.
  apply (InitFilters_weights_zero_rise_panics (mkTensor [4] [0; 2; 2; 4]) 2 0 1 2).
  - lia.
  - reflexivity.
  - reflexivity.
Defined.

(** ProcessTrial on an analyzer that needs no initialization panics before
    it processes anything when the data table is nil (the row cannot be
    added) or when the step is zero samples long (the count of steps left
    divides by it). *)
Theorem ProcessTrial_panics (ext : Ext) (ap : AuditoryProc.t) :
  NeedsInit ap = false ->
  Data ap = None \/ Input.StepSamples (Input ap) = 0 ->
  ProcessTrial ext ap = None.
Proof.
  intros Hni H. unfold ProcessTrial. rewrite Hni. cbn [mbind option_bind].
  destruct (Data ap) as [dt|]; [|reflexivity].
  destruct H as [H|H]; [discriminate|].
  cbn [mbind option_bind]. unfold InputStepsLeft, GoInt.quo.
  cbn [Input set_Data]. rewrite H. reflexivity.
Qed.

Lemma ProcessTrial_panics_witness :
  ProcessTrial ext_idle (set_Data None running) = None.
Proof.
  apply (ProcessTrial_panics ext_idle (set_Data None running)).
  - reflexivity.
  - left. reflexivity.
Defined.

(** Input.Initialize overwrites the whole geometry with the defaults,
    whatever it held: a 25 ms window stepped by 5 ms over 100 ms trials
    with 12 border steps at 16 kHz, one channel, which come to 400, 80 and
    1600 samples, 20 trial steps and 44 steps in all. *)
Theorem Initialize_default_samples (input : Input.t) :
  Input.Initialize input
  = Input.mk (F32.of_int 25) (F32.of_int 5) (F32.of_int 100) 12 16000 1 0
      400 80 1600 20 44.
Proof. exact (Input_Initialize_default input). Qed.

Lemma copy_shorter_src {A} (dst src : list A) :
  (length src <= length dst)%nat -> Mel.copy dst src = src ++ drop (length src) dst.
Proof. intros H. unfold Mel.copy. now rewrite take_ge by lia. Qed.

Lemma copy_longer_src {A} (dst src : list A) :
  (length dst <= length src)%nat -> Mel.copy dst src = take (length dst) src.
Proof.
  intros H. unfold Mel.copy. rewrite (drop_ge dst) by lia. apply app_nil_r.
Qed.

Lemma slice_Some {A} (s : list A) (lo hi : Z) :
  0 <= lo <= hi -> hi <= Slice.len s ->
  slice s lo hi = Some (take (Z.to_nat (hi - lo)) (drop (Z.to_nat lo) s)).
Proof.
  intros H1 H2. unfold slice.
  destruct (Z.leb_spec 0 lo), (Z.leb_spec lo hi), (Z.leb_spec hi (Slice.len s));
    try lia. reflexivity.
Qed.

(** The zero padding of [SoundToWindow]: the cells of [win] from [c] on
    are overwritten from a slice of [4 * (n - c)] zeros. *)
Lemma pad_zeros (win : list F32.t) (c n : Z) :
  0 <= c <= n -> Slice.len win = n ->
  take (Z.to_nat c) win
    ++ Mel.copy (take (Z.to_nat (n - c)) (drop (Z.to_nat c) win))
         (replicate (Z.to_nat ((n - c) * 4)) F32.zero)
  = take (Z.to_nat c) win ++ replicate (Z.to_nat (n - c)) F32.zero.
Proof.
  intros Hc Hn. unfold Slice.len in Hn. f_equal.
  rewrite copy_longer_src.
  - rewrite length_take, length_drop, take_replicate. f_equal. lia.
  - rewrite length_take, length_drop, length_replicate. lia.
Qed.


(** SoundToWindow on a one-dimensional sound of fewer than 2^24 samples
    and a window of the configured size: it never panics, writes nothing
    but the window, and the window then holds the samples from [inPos] on
    -- all [WinSamples] of them when the sound has that many left, fewer
    or none near and past its end -- followed by zeros. *)
Theorem SoundToWindow_pads (ap : AuditoryProc.t) (inPos ch : Z) :
  NumDims (SoundFull ap) = 1 ->
  Slice.len (Values (WindowIn ap)) = Input.WinSamples (Input ap) ->
  0 < Input.WinSamples (Input ap) < 2 ^ 24 ->
  Slice.len (Values (SoundFull ap)) < 2 ^ 24 ->
  0 <= inPos <= max_int ->
  SoundToWindow ap inPos ch
  = Some (set_WindowIn (set_Values (padded_window ap inPos) (WindowIn ap)) ap).
Proof.
  intros Hdim Hwin Hn Hlen Hpos. unfold SoundToWindow, padded_window. cbv zeta.
  set (sound := Values (SoundFull ap)) in *.
  set (n := Input.WinSamples (Input ap)) in *.
  set (window := Values (WindowIn ap)) in *.
  assert (Hlen0 : 0 <= Slice.len sound) by (unfold Slice.len; lia).
  assert (Eav : GoInt.sub (Slice.len sound) inPos = Slice.len sound - inPos).
  { apply wrap_id. unfold in_range, min_int, max_int in *. lia. }
  rewrite Eav.
  destruct (F32Facts.samplesCopy_spec (Slice.len sound - inPos) n ltac:(lia) Hn)
    as (Hc1 & Hc0 & Hc2).
  cbv zeta in Hc1, Hc0, Hc2. rewrite Hc2.
  set (c1 := F32.to_int _) in *.
  set (c := Z.max 0 (Z.min (Slice.len sound - inPos) n)) in *.
  assert (Hc : 0 <= c <= n) by lia.
  assert (Ez : GoInt.sub n c = n - c).
  { apply wrap_id. unfold in_range, min_int, max_int in *. lia. }
  assert (Em : GoInt.mul (n - c) 4 = (n - c) * 4).
  { apply wrap_id. unfold in_range, min_int, max_int in *. lia. }
  rewrite Ez, Em.
  assert (Hw1 : exists win1,
            (if 0 <? c1
             then if NumDims (SoundFull ap) =? 1
                  then slice sound inPos (GoInt.add c1 inPos)
                       ≫= λ src, Some (Mel.copy window src)
                  else Some window
             else Some window) = Some win1 /\
            Slice.len win1 = n /\
            take (Z.to_nat c) win1 = take (Z.to_nat c) (drop (Z.to_nat inPos) sound)).
  { destruct (Z.ltb_spec 0 c1) as [Hpos1|Hneg1].
    - assert (Hav : 0 < Slice.len sound - inPos) by lia.
      specialize (Hc1 Hav). assert (Ecc : c1 = c) by lia.
      rewrite Hdim. cbn [Z.eqb Pos.eqb].
      assert (Ea : GoInt.add c1 inPos = c1 + inPos).
      { apply wrap_id. unfold in_range, min_int, max_int in *. lia. }
      rewrite Ea, slice_Some by lia. cbn [mbind option_bind].
      replace (c1 + inPos - inPos) with c by lia.
      set (src := take (Z.to_nat c) (drop (Z.to_nat inPos) sound)).
      assert (Hsrc : length src = Z.to_nat c).
      { unfold src. rewrite length_take, length_drop. unfold Slice.len in *. lia. }
      exists (Mel.copy window src). split; [reflexivity|].
      rewrite copy_shorter_src by (unfold Slice.len in *; lia).
      split.
      + unfold Slice.len in *. rewrite length_app, length_drop. lia.
      + rewrite take_app_le by lia. now rewrite take_ge by lia.
    - exists window. split; [reflexivity|]. split; [exact Hwin|].
      assert (c = 0) as -> by lia. reflexivity. }
  destruct Hw1 as (win1 & -> & Hl1 & Ht1). cbn [mbind option_bind].
  destruct (Z.ltb_spec 0 (n - c)) as [Hz|Hz].
  - destruct (Z.ltb_spec ((n - c) * 4) 0); [lia|].
    rewrite slice_Some by lia. cbn [mbind option_bind].
    rewrite Hl1, pad_zeros, Ht1 by lia. reflexivity.
  - cbn [mbind option_bind]. rewrite <- Ht1.
    replace (Z.to_nat (n - c)) with 0%nat by lia. cbn [replicate].
    rewrite app_nil_r, take_ge by (unfold Slice.len in *; lia). reflexivity.
Qed.

Lemma SoundToWindow_pads_witness :
  SoundToWindow running 9 0
  = Some (set_WindowIn (set_Values (padded_window running 9) (WindowIn running))
            running).
Proof.
  apply (SoundToWindow_pads running 9 0).
  - reflexivity.
  - reflexivity.
  - vm_compute. split; reflexivity.
  - vm_compute. reflexivity.
  - vm_compute. split; discriminate.
Defined.

Lemma SetShape_filled (tsr tsr' : Float32) (shape index : list Z) :
  SetShape F32.zero tsr shape = Some tsr' ->
  in_bounds index shape -> foldr Z.mul 1 shape <= max_int ->
  Shp tsr' = shape /\ filled tsr'.
Proof.
  intros H Hin Hmax. apply SetShape_Some in H as [Hs Hl].
  split; [exact Hs|]. unfold filled. rewrite Hl, Hs.
  split; [now apply (shape_len_prod index)|exact Hmax].
Qed.

Lemma InitOutMatrix_WindowIn (ap ap' : AuditoryProc.t) :
  InitOutMatrix ap = Some ap' ->
  SetShape F32.zero (WindowIn ap) [Input.WinSamples (Input ap)] = Some (WindowIn ap').
Proof.
  unfold InitOutMatrix. intros H. cbv zeta in H.
  destruct (SetShape F32.zero (WindowIn ap) _) as [w|] eqn:Hw; [|discriminate].
  cbn [mbind option_bind] in H.
  run_binds H; injection H as <-; reflexivity.
Qed.

(** InitOutMatrix shapes the buffers the trial loop relies on: the window
    holds [WinSamples] samples and, with the bank on, the mel trial tensor
    holds filters x steps x channels values; the geometry and the bank
    settings are not written. *)
Theorem InitOutMatrix_shapes (ap ap' : AuditoryProc.t) :
  InitOutMatrix ap = Some ap' ->
  MelFBank.On (bank ap) = true ->
  0 < Input.WinSamples (Input ap) <= max_int ->
  0 < MelFBank.NFilters (bank ap) -> 0 < Input.TotalSteps (Input ap) ->
  0 < Input.Channels (Input ap) ->
  MelFBank.NFilters (bank ap) * (Input.TotalSteps (Input ap) * Input.Channels (Input ap))
  <= max_int ->
  Input ap' = Input ap /\ bank ap' = bank ap /\
  Slice.len (Values (WindowIn ap')) = Input.WinSamples (Input ap) /\
  Shp (trial ap') = [MelFBank.NFilters (bank ap); Input.TotalSteps (Input ap);
                     Input.Channels (Input ap)] /\
  filled (trial ap').
Proof.
  intros H Hon Hw Hn HS HC Hmax.
  destruct (InitOutMatrix_frame _ _ H) as [Hi _].
  destruct (InitOutMatrix_Mel _ _ H Hon) as (Hb & _ & _ & Ht).
  pose proof (InitOutMatrix_WindowIn _ _ H) as Hwin.
  apply SetShape_Some in Hwin as [_ Hwl].
  apply (SetShape_filled _ _ _ [0; 0; 0]) in Ht as [Hs Hf].
  - split; [exact Hi|]. split; [exact Hb|]. split; [|split; assumption].
    rewrite Hwl. unfold shape_len. cbn [foldr]. unfold GoInt.mul.
    rewrite Z.mul_1_r. apply wrap_id. unfold in_range, min_int, max_int in *. lia.
  - apply in_bounds_3. lia.
  - cbn [foldr]. rewrite Z.mul_1_r. exact Hmax.
Qed.

Lemma InitOutMatrix_shapes_witness :
  Input running_shaped = Input running_unshaped /\
  bank running_shaped = bank running_unshaped /\
  Slice.len (Values (WindowIn running_shaped)) = 2 /\
  Shp (trial running_shaped) = [1; 3; 1] /\
  filled (trial running_shaped).
Proof.
  apply (InitOutMatrix_shapes running_unshaped running_shaped).
  - vm_compute. reflexivity.
  - reflexivity.
  - vm_compute. split; [reflexivity|discriminate].
  - reflexivity.
  - reflexivity.
  - reflexivity.
  - vm_compute. discriminate.
Defined.

End AuditoryProcFacts.
